(** * Ontology store and transitive reasoning: a shallow embedding

    Two Python modules are embedded here:

    - [lab_ontology.py]: the class [Ontology] (a store built by
      [add_class], [add_is_a], [add_part_of], [add_depends_on],
      [add_instance]; the queries [_reachable], [is_a], [part_of],
      [depends_on], [any_path]; the validator [validate]);
    - [src/ontology.py]: the module of global tables ([CLASSES], [IS_A],
      [PART_OF], [HAS_PROPERTY], [INSTANCE_OF], [ALIASES]) with [resolve],
      [is_a_transitive], [has_part_transitive], [neighbors], [connected].

    Python sets and dicts are finite sets ([gset]) and finite maps ([gmap])
    of stdpp; a [for] loop over a set runs over [elements] of it.  A [while]
    loop is a structurally recursive function on an iteration budget; running
    out of budget is the distinguished result [Timeout], and each query is
    shown to stay clear of it wherever the source loop terminates. *)

From stdpp Require Import gmap strings list fin_maps fin_sets pretty relations.

(** ** Results of a Python call *)

Inductive exn : Type :=
  | KeyError (msg : string)
  | AttributeError (msg : string)
  | AssertionError (msg : string).

Inductive res (A : Type) : Type :=
  | Ret (a : A)
  | Raise (e : exn)
  | Timeout.
Arguments Ret {A} a.
Arguments Raise {A} e.
Arguments Timeout {A}.

Definition res_bind {A B : Type} (m : res A) (k : A → res B) : res B :=
  match m with
  | Ret a => k a
  | Raise e => Raise e
  | Timeout => Timeout
  end.

Notation "x ←ᵣ m ; k" := (res_bind m (λ x, k))
  (at level 20, m at level 100, k at level 200, right associativity,
   format "x  ←ᵣ  m ;  '/' k").

Definition returns {A : Type} (m : res A) : Prop := ∃ a, m = Ret a.
Definition raises {A : Type} (m : res A) : Prop := ∃ e, m = Raise e.

(** The double quote character, used inside f-string messages. *)
Definition dquote : string := String (Ascii.ascii_of_nat 34) EmptyString.

(** ** [defaultdict(set)]: source identifier to set of targets *)

Abbreviation graph := (gmap string (gset string)).

(** [graph.get(x, ())]: the targets of [x], nothing for an unknown [x]. *)
Definition get (g : graph) (x : string) : gset string := default ∅ (g !! x).

(** [graph[x].add(y)] *)
Definition add_edge (g : graph) (x y : string) : graph :=
  <[x := {[y]} ∪ get g x]> g.

(** The successors of [x] in the order in which a [for] loop meets them. *)
Definition succs (g : graph) (x : string) : list string := elements (get g x).

(** ** Iteration budgets of the worklist loops

    A worklist loop that pops one entry per iteration and pushes the
    neighbours [nb x] of a node [x] only when it first visits [x] runs for at
    most [total_degree V nb + 1] iterations, [V] being a finite set that
    holds every node with neighbours. *)

Definition total_degree (V : gset string) (nb : string → list string) : nat :=
  sum_list ((λ x, length (nb x)) <$> elements V).

(** The part of the budget not yet used once the nodes of [seen] are
    visited. *)
Definition weight (V : gset string) (nb : string → list string)
    (seen : gset string) : nat :=
  total_degree (V ∖ seen) nb.

(** Number of stored edges of one relation. *)
Definition edge_count (g : graph) : nat := total_degree (dom g) (succs g).

(** ** [lab_ontology.py] *)

Module lab_ontology.

(** The three keys of [self.rels], in insertion order. *)
Inductive relname : Type := R_is_a | R_part_of | R_depends_on.

#[global] Instance relname_eq_dec : EqDecision relname.
Proof. solve_decision. Defined.

Definition relnames : list relname := [R_is_a; R_part_of; R_depends_on].

Record Ontology : Type := mkOntology {
  classes : gset string;
  instances : gset string;
  instance_of : gmap string string;
  rel_is_a : graph;
  rel_part_of : graph;
  rel_depends_on : graph;
}.

(** [self.rels[relname]] *)
Definition rels (O : Ontology) (r : relname) : graph :=
  match r with
  | R_is_a => rel_is_a O
  | R_part_of => rel_part_of O
  | R_depends_on => rel_depends_on O
  end.

(** [Ontology()] *)
Definition init : Ontology :=
  mkOntology ∅ ∅ ∅ ∅ ∅ ∅.

Definition add_class (O : Ontology) (c : string) : Ontology :=
  mkOntology ({[c]} ∪ classes O) (instances O) (instance_of O)
             (rel_is_a O) (rel_part_of O) (rel_depends_on O).

Definition add_is_a (O : Ontology) (child parent : string) : Ontology :=
  let O := add_class O child in
  let O := add_class O parent in
  mkOntology (classes O) (instances O) (instance_of O)
             (add_edge (rel_is_a O) child parent) (rel_part_of O) (rel_depends_on O).

Definition add_part_of (O : Ontology) (part whole : string) : Ontology :=
  let O := add_class O part in
  let O := add_class O whole in
  mkOntology (classes O) (instances O) (instance_of O)
             (rel_is_a O) (add_edge (rel_part_of O) part whole) (rel_depends_on O).

Definition add_depends_on (O : Ontology) (a b : string) : Ontology :=
  let O := add_class O a in
  let O := add_class O b in
  mkOntology (classes O) (instances O) (instance_of O)
             (rel_is_a O) (rel_part_of O) (add_edge (rel_depends_on O) a b).

Definition add_instance (O : Ontology) (inst clazz : string) : Ontology :=
  let O := add_class O clazz in
  mkOntology (classes O) ({[inst]} ∪ instances O) (<[inst := clazz]> (instance_of O))
             (rel_is_a O) (rel_part_of O) (rel_depends_on O).

(** *** [_reachable]

    The stack is a list whose head is the top: [stack.pop()] takes the head,
    and the [for] loop of [stack.append(y)] leaves the last target on top. *)

Definition push_all (ys : list string) (stack : list string) : list string :=
  foldl (λ st y, y :: st) stack ys.

Fixpoint reachable_loop (g : graph) (target : string) (fuel : nat)
    (seen : gset string) (stack : list string) : res bool :=
  match fuel with
  | 0 => Timeout
  | S fuel =>
      match stack with
      | [] => Ret false
      | x :: stack =>
          if decide (x = target) then Ret true
          else if decide (x ∈ seen) then reachable_loop g target fuel seen stack
          else reachable_loop g target fuel ({[x]} ∪ seen)
                 (push_all (succs g x) stack)
      end
  end.

(** The loop pops one entry per iteration and pushes the targets of a node
    only the first time it sees it: [edge_count g + 2] iterations are
    enough (see [reachable_total]). *)
Definition _reachable (O : Ontology) (start target : string) (relname : relname)
    : res bool :=
  let g := rels O relname in
  reachable_loop g target (edge_count g + 2) ∅ [start].

(** An instance is replaced by its assigned class, anything else is kept:
    [self.instance_of.get(x, x) if x in self.instances else x]. *)
Definition lift (O : Ontology) (x : string) : string :=
  if decide (x ∈ instances O) then default x (instance_of O !! x) else x.

Definition is_a (O : Ontology) (child parent : string) : res bool :=
  _reachable O child parent R_is_a.

Definition part_of (O : Ontology) (part whole : string) : res bool :=
  direct ←ᵣ _reachable O part whole R_part_of;
  if (direct : bool) then Ret true
  else
    let a := lift O part in
    let b := lift O whole in
    _reachable O a b R_part_of.

Definition depends_on (O : Ontology) (a b : string) : res bool :=
  _reachable O a b R_depends_on.

Definition class_of (O : Ontology) (inst : string) : option string :=
  instance_of O !! inst.

Definition is_class (O : Ontology) (x : string) : bool :=
  bool_decide (x ∈ classes O).

Definition is_instance (O : Ontology) (x : string) : bool :=
  bool_decide (x ∈ instances O).

(** *** [any_path]

    [prev] maps a discovered node to the edge that first reached it; the
    start node maps to [(None, None)], here [None].  The queue is a list
    whose head is the front. *)

Definition edge : Type := string * relname * string.

Abbreviation prevmap := (gmap string (option (string * relname))).
Abbreviation queue := (list (string * option relname)).

(** The inner [for y in graph.get(x, ())] loop. *)
Definition visit_targets (x : string) (r : relname) (ys : list string)
    (st : prevmap * queue) : prevmap * queue :=
  foldl (λ (st : prevmap * queue) (y : string),
           if decide (y ∈ dom st.1) then st
           else (<[y := Some (x, r)]> st.1, st.2 ++ [(y, Some r)]))
        st ys.

(** The outer [for relname, graph in self.rels.items()] loop. *)
Definition expand (O : Ontology) (x : string) (st : prevmap * queue)
    : prevmap * queue :=
  foldl (λ st r, visit_targets x r (succs (rels O r) x) st) st relnames.

(** The inner [while prev[cur][0] is not None] loop; [prev[cur]] raises
    [KeyError] on a missing key. *)
Fixpoint walk_back (prev : prevmap) (fuel : nat) (cur : string)
    (path : list edge) : res (list edge) :=
  match fuel with
  | 0 => Timeout
  | S fuel =>
      match prev !! cur with
      | None => Raise (KeyError cur)
      | Some None => Ret path
      | Some (Some (pnode, prel)) =>
          walk_back prev fuel pnode (path ++ [(pnode, prel, cur)])
      end
  end.

Fixpoint any_path_loop (O : Ontology) (b : string) (fuel : nat)
    (prev : prevmap) (q : queue) : res (option (list edge)) :=
  match fuel with
  | 0 => Timeout
  | S fuel =>
      match q with
      | [] => Ret None
      | (x, _) :: q =>
          if decide (x = b) then
            path ←ᵣ walk_back prev (size prev) b [];
            Ret (Some (reverse path))
          else
            let st := expand O x (prev, q) in
            any_path_loop O b fuel st.1 st.2
      end
  end.

(** Every identifier that is the target of some stored edge. *)
Definition targets (g : graph) : gset string :=
  ⋃ (get g <$> elements (dom g)).

Definition all_targets (O : Ontology) : gset string :=
  targets (rel_is_a O) ∪ targets (rel_part_of O) ∪ targets (rel_depends_on O).

(** A node enters the queue only when it enters [prev]:
    [size (all_targets O) + 2] iterations are enough
    (see [any_path_spec]). *)
Definition any_path (O : Ontology) (a b : string) : res (option (list edge)) :=
  any_path_loop O b (size (all_targets O) + 2) {[a := None]} [(a, None)].

(** *** Class and instance lookups *)

Definition subclasses (O : Ontology) (c : string) : gset string :=
  dom (filter (λ kv : string * gset string, c ∈ kv.2) (rel_is_a O)).

Definition is_leaf_class (O : Ontology) (c : string) : bool :=
  bool_decide (size (subclasses O c) = 0).

Definition instances_of (O : Ontology) (c : string) : list string :=
  (map_to_list (filter (λ kv : string * string, kv.2 = c) (instance_of O))).*1.

(** *** [max_depth_from] and [validate] *)

(** [down]: parent to set of children, the inverse of the [is_a] graph. *)
Definition build_down (g : graph) : graph :=
  foldl (λ (down : graph) (item : string * gset string),
           foldl (λ dn p, add_edge dn p item.1) down (elements item.2))
        ∅ (map_to_list g).

Definition push_children (chs : list string) (d : nat)
    (stack : list (string * nat)) : list (string * nat) :=
  foldl (λ st ch, (ch, d + 1) :: st) stack chs.

(** The source loop has no visited set: it does not terminate when a cycle
    of [is_a] edges lies below [root], so the budget is a parameter. *)
Fixpoint max_depth_loop (down : graph) (fuel : nat) (best : nat)
    (stack : list (string * nat)) : res nat :=
  match fuel with
  | 0 => Timeout
  | S fuel =>
      match stack with
      | [] => Ret best
      | (node, d) :: stack =>
          max_depth_loop down fuel (best `max` d)
            (push_children (succs down node) d stack)
      end
  end.

Definition max_depth_from (fuel : nat) (O : Ontology) (root : string) : res nat :=
  let down := build_down (rel_is_a O) in
  if decide (root ∈ classes O) then max_depth_loop down fuel 0 [(root, 1)]
  else Ret 0.

Definition class_count_msg (n : nat) : string :=
  "Need ≥20 classes, have " +:+ pretty n.

Definition depth_msg : string := "Need an is_a chain of depth ≥4".

Definition leaf_msg (c : string) (n : nat) : string :=
  "Leaf " +:+ dquote +:+ c +:+ dquote +:+ " must have ≥2 instances (has "
    +:+ pretty n +:+ ")".

(** The [for c in leaves] loop of [validate]. *)
Fixpoint check_leaves (O : Ontology) (leaves : list string) : res bool :=
  match leaves with
  | [] => Ret true
  | c :: leaves =>
      if decide (length (instances_of O c) < 2)
      then Raise (AssertionError (leaf_msg c (length (instances_of O c))))
      else check_leaves O leaves
  end.

Definition validate (fuel : nat) (O : Ontology) : res bool :=
  if decide (20 ≤ size (classes O)) then
    d ←ᵣ max_depth_from fuel O "Computer Science";
    if decide (4 ≤ d) then
      let leaves := filter (λ c, is_leaf_class O c = true) (elements (classes O)) in
      check_leaves O leaves
    else Raise (AssertionError depth_msg)
  else Raise (AssertionError (class_count_msg (size (classes O)))).

(** *** Construction sequences *)

Inductive op : Type :=
  | AddClass (c : string)
  | AddIsA (child parent : string)
  | AddPartOf (part whole : string)
  | AddDependsOn (a b : string)
  | AddInstance (inst clazz : string).

Definition apply_op (O : Ontology) (o : op) : Ontology :=
  match o with
  | AddClass c => add_class O c
  | AddIsA c p => add_is_a O c p
  | AddPartOf p w => add_part_of O p w
  | AddDependsOn a b => add_depends_on O a b
  | AddInstance i c => add_instance O i c
  end.

Definition build (ops : list op) : Ontology := foldl apply_op init ops.

(** Identifiers a construction sequence registers as classes, and as
    instances. *)
Definition op_classes (o : op) : gset string :=
  match o with
  | AddClass c => {[c]}
  | AddIsA a b | AddPartOf a b | AddDependsOn a b => {[a; b]}
  | AddInstance _ c => {[c]}
  end.

Definition op_instances (o : op) : gset string :=
  match o with
  | AddInstance i _ => {[i]}
  | _ => ∅
  end.

(** *** [load_ontology]

    The calls of [load_ontology], in source order. *)

Definition seed_ops : list op :=
  [AddIsA "Theory of Computation" "Computer Science";
   AddIsA "Automata & Formal Languages" "Theory of Computation";
   AddIsA "Finite Automata" "Automata & Formal Languages";
   AddIsA "Context-Free Grammars" "Automata & Formal Languages";
   AddIsA "Complexity Theory" "Theory of Computation";
   AddIsA "Complexity Classes" "Complexity Theory";
   AddIsA "Programming Languages & Compilers" "Computer Science";
   AddIsA "Programming Paradigms" "Programming Languages & Compilers";
   AddIsA "Functional Programming" "Programming Paradigms";
   AddIsA "Object-Oriented Programming" "Programming Paradigms";
   AddIsA "Compilers" "Programming Languages & Compilers";
   AddIsA "Lexical Analysis" "Compilers";
   AddIsA "Parsing" "Compilers";
   AddIsA "Algorithms" "Computer Science";
   AddIsA "Graph Algorithms" "Algorithms";
   AddIsA "Shortest Path" "Graph Algorithms";
   AddIsA "Spanning Tree" "Graph Algorithms";
   AddIsA "Sorting" "Algorithms";
   AddIsA "Data Structures" "Computer Science";
   AddIsA "Trees" "Data Structures";
   AddIsA "Binary Search Tree" "Trees";
   AddIsA "Hashing" "Data Structures";
   AddIsA "Hash Table" "Hashing";
   AddIsA "Priority Queue" "Data Structures";
   AddIsA "Operating Systems" "Computer Science";
   AddIsA "Process Management" "Operating Systems";
   AddIsA "CPU Scheduling" "Process Management";
   AddIsA "Memory Management" "Operating Systems";
   AddIsA "Virtual Memory" "Memory Management";
   AddIsA "Computer Architecture" "Computer Science";
   AddIsA "Instruction Set Architecture" "Computer Architecture";
   AddIsA "RISC" "Instruction Set Architecture";
   AddIsA "CISC" "Instruction Set Architecture";
   AddIsA "Parallel Models" "Computer Architecture";
   AddIsA "SIMD" "Parallel Models";
   AddIsA "MIMD" "Parallel Models";
   AddIsA "Computer Networks" "Computer Science";
   AddIsA "Protocol Stack" "Computer Networks";
   AddIsA "Transport Layer" "Protocol Stack";
   AddIsA "Network Layer" "Protocol Stack";
   AddIsA "Databases" "Computer Science";
   AddIsA "Relational Databases" "Databases";
   AddIsA "Key–Value Stores" "Databases";
   AddIsA "Cryptography" "Computer Science";
   AddIsA "Symmetric Cryptography" "Cryptography";
   AddIsA "Public-Key Cryptography" "Cryptography";
   AddIsA "Artificial Intelligence" "Computer Science";
   AddIsA "Machine Learning" "Artificial Intelligence";
   AddIsA "Supervised Learning" "Machine Learning";
   AddIsA "Unsupervised Learning" "Machine Learning";
   AddIsA "Natural Language Processing" "Artificial Intelligence";
   AddIsA "Language Modeling" "Natural Language Processing";
   AddIsA "Computational Geometry" "Computer Science";
   AddIsA "Planar Geometry" "Computational Geometry";
   AddIsA "Triangulation" "Planar Geometry";
   AddPartOf "Lexical Analysis" "Compilers";
   AddPartOf "Parsing" "Compilers";
   AddPartOf "Process Management" "Operating Systems";
   AddPartOf "CPU Scheduling" "Process Management";
   AddPartOf "Memory Management" "Operating Systems";
   AddPartOf "Virtual Memory" "Memory Management";
   AddPartOf "Protocol Stack" "Computer Networks";
   AddPartOf "Transport Layer" "Protocol Stack";
   AddPartOf "Network Layer" "Protocol Stack";
   AddPartOf "Instruction Set Architecture" "Computer Architecture";
   AddPartOf "Parallel Models" "Computer Architecture";
   AddDependsOn "Lexical Analysis" "Finite Automata";
   AddDependsOn "Parsing" "Context-Free Grammars";
   AddDependsOn "Shortest Path" "Priority Queue";
   AddDependsOn "Spanning Tree" "Sorting";
   AddDependsOn "Hash Table" "Hashing";
   AddDependsOn "Transport Layer" "Network Layer";
   AddDependsOn "Language Modeling" "Machine Learning";
   AddDependsOn "Virtual Memory" "Computer Architecture";
   AddInstance "DFA" "Finite Automata";
   AddInstance "NFA" "Finite Automata";
   AddInstance "LL(1) grammar" "Context-Free Grammars";
   AddInstance "LR(1) grammar" "Context-Free Grammars";
   AddInstance "P problems" "Complexity Classes";
   AddInstance "NP-complete problems" "Complexity Classes";
   AddInstance "Haskell" "Functional Programming";
   AddInstance "OCaml" "Functional Programming";
   AddInstance "Java" "Object-Oriented Programming";
   AddInstance "C++" "Object-Oriented Programming";
   AddInstance "DFA scanner" "Lexical Analysis";
   AddInstance "Regex-based scanner" "Lexical Analysis";
   AddInstance "LL parser" "Parsing";
   AddInstance "LR parser" "Parsing";
   AddInstance "Dijkstra" "Shortest Path";
   AddInstance "Bellman–Ford" "Shortest Path";
   AddInstance "Kruskal" "Spanning Tree";
   AddInstance "Prim" "Spanning Tree";
   AddInstance "Merge sort" "Sorting";
   AddInstance "Quick sort" "Sorting";
   AddInstance "AVL tree" "Binary Search Tree";
   AddInstance "Red–Black tree" "Binary Search Tree";
   AddInstance "Separate chaining table" "Hash Table";
   AddInstance "Open addressing table" "Hash Table";
   AddInstance "Binary heap" "Priority Queue";
   AddInstance "Fibonacci heap" "Priority Queue";
   AddInstance "Round Robin" "CPU Scheduling";
   AddInstance "Priority scheduling" "CPU Scheduling";
   AddInstance "Paging" "Virtual Memory";
   AddInstance "Segmentation" "Virtual Memory";
   AddInstance "ARMv8" "RISC";
   AddInstance "RISC-V" "RISC";
   AddInstance "x86" "CISC";
   AddInstance "x86-64" "CISC";
   AddInstance "AVX2" "SIMD";
   AddInstance "NEON" "SIMD";
   AddInstance "SMP (shared-memory)" "MIMD";
   AddInstance "MPI cluster" "MIMD";
   AddInstance "TCP" "Transport Layer";
   AddInstance "UDP" "Transport Layer";
   AddInstance "IPv4" "Network Layer";
   AddInstance "IPv6" "Network Layer";
   AddInstance "MySQL" "Relational Databases";
   AddInstance "PostgreSQL" "Relational Databases";
   AddInstance "Redis" "Key–Value Stores";
   AddInstance "DynamoDB" "Key–Value Stores";
   AddInstance "AES-256" "Symmetric Cryptography";
   AddInstance "ChaCha20" "Symmetric Cryptography";
   AddInstance "RSA-2048" "Public-Key Cryptography";
   AddInstance "ECDSA-P256" "Public-Key Cryptography";
   AddInstance "Linear Regression" "Supervised Learning";
   AddInstance "SVM" "Supervised Learning";
   AddInstance "K-Means" "Unsupervised Learning";
   AddInstance "PCA" "Unsupervised Learning";
   AddInstance "n-gram model" "Language Modeling";
   AddInstance "Transformer LM" "Language Modeling";
   AddInstance "Delaunay triangulation" "Triangulation";
   AddInstance "Ear clipping" "Triangulation"].

(** [load_ontology()] builds the store, runs [O.validate()] and returns the
    store; an [AssertionError] of [validate] escapes. *)
Definition load_ontology (fuel : nat) : res Ontology :=
  let O := build seed_ops in
  _ ←ᵣ validate fuel O;
  Ret O.

End lab_ontology.

(** ** [src/ontology.py] *)

Module ontology.

(** Identifiers are [str] values, held as the bytes of their UTF-8
    encoding.  [str.strip()] removes from both ends the code points for
    which [str.isspace] holds: U+0009-U+000D, U+001C-U+0020, U+0085, U+00A0,
    U+1680, U+2000-U+200A, U+2028, U+2029, U+202F, U+205F and U+3000.  They
    are encoded on one, two or three bytes. *)
Definition is_space (c : Ascii.ascii) : bool :=
  let n := Ascii.nat_of_ascii c in
  bool_decide (9 ≤ n ≤ 13 ∨ 28 ≤ n ≤ 32).

(** U+0085 is [C2 85], U+00A0 is [C2 A0]. *)
Definition is_space2 (c1 c2 : Ascii.ascii) : bool :=
  let n1 := Ascii.nat_of_ascii c1 in
  let n2 := Ascii.nat_of_ascii c2 in
  bool_decide (n1 = 194 ∧ (n2 = 133 ∨ n2 = 160)).

(** U+1680 is [E1 9A 80]; U+2000-U+200A, U+2028, U+2029, U+202F are
    [E2 80 80]-[E2 80 8A], [E2 80 A8], [E2 80 A9], [E2 80 AF]; U+205F is
    [E2 81 9F]; U+3000 is [E3 80 80]. *)
Definition is_space3 (c1 c2 c3 : Ascii.ascii) : bool :=
  let n1 := Ascii.nat_of_ascii c1 in
  let n2 := Ascii.nat_of_ascii c2 in
  let n3 := Ascii.nat_of_ascii c3 in
  bool_decide ((n1 = 225 ∧ n2 = 154 ∧ n3 = 128)
               ∨ (n1 = 226 ∧ n2 = 128
                  ∧ (128 ≤ n3 ≤ 138 ∨ n3 = 168 ∨ n3 = 169 ∨ n3 = 175))
               ∨ (n1 = 226 ∧ n2 = 129 ∧ n3 = 159)
               ∨ (n1 = 227 ∧ n2 = 128 ∧ n3 = 128)).

(** [str.lstrip()] *)
Fixpoint lstrip (s : string) : string :=
  match s with
  | EmptyString => EmptyString
  | String c1 s1 =>
      if is_space c1 then lstrip s1
      else
        match s1 with
        | EmptyString => s
        | String c2 s2 =>
            if is_space2 c1 c2 then lstrip s2
            else
              match s2 with
              | EmptyString => s
              | String c3 s3 => if is_space3 c1 c2 c3 then lstrip s3 else s
              end
        end
  end.

(** [str.lstrip()] read from the end: [s] is a string in reverse, so the
    bytes of a code point come last byte first. *)
Fixpoint lstrip_reversed (s : string) : string :=
  match s with
  | EmptyString => EmptyString
  | String c1 s1 =>
      if is_space c1 then lstrip_reversed s1
      else
        match s1 with
        | EmptyString => s
        | String c2 s2 =>
            if is_space2 c2 c1 then lstrip_reversed s2
            else
              match s2 with
              | EmptyString => s
              | String c3 s3 =>
                  if is_space3 c3 c2 c1 then lstrip_reversed s3 else s
              end
        end
  end.

(** [str.rstrip()] *)
Definition rstrip (s : string) : string :=
  String.rev (lstrip_reversed (String.rev s)).

(** [str.strip()] *)
Definition strip (s : string) : string := rstrip (lstrip s).

(** Some white space that is not ASCII: U+00A0 (no-break space) and U+3000
    (ideographic space). *)
Definition no_break_space : string :=
  String (Ascii.ascii_of_nat 194) (String (Ascii.ascii_of_nat 160) EmptyString).

Definition ideographic_space : string :=
  String (Ascii.ascii_of_nat 227)
    (String (Ascii.ascii_of_nat 128) (String (Ascii.ascii_of_nat 128) EmptyString)).

(** The global tables.  A set of pairs that the code iterates over is the
    list of its elements, so that what is proved for every list holds for
    every iteration order; [CLASSES] and [ALIASES] are only looked up. *)
Record tables : Type := mkTables {
  CLASSES : gset string;
  IS_A : list (string * string);
  PART_OF : list (string * string);
  HAS_PROPERTY : list (string * string);
  INSTANCE_OF : list (string * string);
  ALIASES : gmap string string;
}.

Definition build_index (edges : list (string * string)) : graph :=
  foldl (λ index ab, add_edge index ab.1 ab.2) ∅ edges.

Section reasoning.

Context (T : tables).

Definition IS_A_INDEX : graph := build_index (IS_A T).
Definition PART_OF_INDEX : graph := build_index (PART_OF T).
Definition HAS_PROPERTY_INDEX : graph := build_index (HAS_PROPERTY T).
Definition INSTANCE_OF_INDEX : graph := build_index (INSTANCE_OF T).

(** [name] is a [str] here, so the [TypeError] branch is not reachable. *)
Definition resolve (name : string) : res string :=
  let key := strip name in
  match ALIASES T !! key with
  | Some canonical => Ret canonical
  | None =>
      if decide (key ∈ CLASSES T) then Ret key
      else
        let instance_classes : gset string :=
          list_to_set (INSTANCE_OF T).*1 ∪ list_to_set (INSTANCE_OF T).*2 in
        if decide (key ∈ instance_classes) then Ret key
        else Raise (KeyError ("Unknown term: " +:+ name))
  end.

(** *** [is_a_transitive] *)

(** The [for parent in IS_A_INDEX.get(node, ())] loop; [None] stands for
    its [return True]. *)
Fixpoint scan_parents (ancestor : string) (parents : list string)
    (queue : list string) : option (list string) :=
  match parents with
  | [] => Some queue
  | parent :: parents =>
      if decide (parent = ancestor) then None
      else scan_parents ancestor parents (queue ++ [parent])
  end.

Fixpoint is_a_loop (ancestor : string) (fuel : nat) (visited : gset string)
    (queue : list string) : res bool :=
  match fuel with
  | 0 => Timeout
  | S fuel =>
      match queue with
      | [] => Ret false
      | node :: queue =>
          if decide (node ∈ visited) then is_a_loop ancestor fuel visited queue
          else
            match scan_parents ancestor (succs IS_A_INDEX node) queue with
            | None => Ret true
            | Some queue => is_a_loop ancestor fuel ({[node]} ∪ visited) queue
            end
      end
  end.

Definition is_a_transitive (child ancestor : string) : res bool :=
  child ←ᵣ resolve child;
  ancestor ←ᵣ resolve ancestor;
  if decide (child = ancestor) then Ret true
  else is_a_loop ancestor (edge_count IS_A_INDEX + 2) ∅ [child].

(** *** [part_of_transitive] *)

(** [w == whole or is_a_transitive(whole, w)] *)
Definition accepts (whole w : string) : res bool :=
  if decide (w = whole) then Ret true else is_a_transitive whole w.

(** [any(w == whole or is_a_transitive(whole, w) for w in ws)] *)
Fixpoint any_accepts (whole : string) (ws : list string) : res bool :=
  match ws with
  | [] => Ret false
  | w :: ws =>
      r ←ᵣ accepts whole w;
      if (r : bool) then Ret true else any_accepts whole ws
  end.

(** The [for w in PART_OF_INDEX.get(node, ())] loop; [None] stands for its
    [return True]. *)
Fixpoint scan_wholes (whole : string) (ws : list string) (queue : list string)
    : res (option (list string)) :=
  match ws with
  | [] => Ret (Some queue)
  | w :: ws =>
      r ←ᵣ accepts whole w;
      if (r : bool) then Ret None else scan_wholes whole ws (queue ++ [w])
  end.

(** The [for super_part in IS_A_INDEX.get(node, ())] loop; [None] stands for
    its [return True]. *)
Fixpoint scan_supers (whole : string) (supers : list string)
    (queue : list string) : res (option (list string)) :=
  match supers with
  | [] => Ret (Some queue)
  | super_part :: supers =>
      r ←ᵣ (if decide ((super_part, whole) ∈ PART_OF T) then Ret true
            else any_accepts whole (succs PART_OF_INDEX super_part));
      if (r : bool) then Ret None
      else scan_supers whole supers (queue ++ [super_part])
  end.

Fixpoint part_of_loop (whole : string) (fuel : nat) (visited : gset string)
    (queue : list string) : res bool :=
  match fuel with
  | 0 => Timeout
  | S fuel =>
      match queue with
      | [] => Ret false
      | node :: queue =>
          if decide (node ∈ visited) then part_of_loop whole fuel visited queue
          else
            let visited := {[node]} ∪ visited in
            q1 ←ᵣ scan_wholes whole (succs PART_OF_INDEX node) queue;
            match q1 with
            | None => Ret true
            | Some queue =>
                q2 ←ᵣ scan_supers whole (succs IS_A_INDEX node) queue;
                match q2 with
                | None => Ret true
                | Some queue => part_of_loop whole fuel visited queue
                end
            end
      end
  end.

(** The wholes and the superclasses of a node, as the two loops queue
    them. *)
Definition climbs (node : string) : list string :=
  succs PART_OF_INDEX node ++ succs IS_A_INDEX node.

(** A node is expanded once and queues at most [climbs node]:
    [total_degree (dom PART_OF_INDEX ∪ dom IS_A_INDEX) climbs + 2]
    iterations are enough (see [part_of_loop_terminates]). *)
Definition part_of_transitive (part whole : string) : res bool :=
  part ←ᵣ resolve part;
  whole ←ᵣ resolve whole;
  part_of_loop whole
    (total_degree (dom PART_OF_INDEX ∪ dom IS_A_INDEX) climbs + 2) ∅ [part].

(** *** [has_part] and [has_part_transitive] *)

Definition has_part (whole part : string) : res bool :=
  whole ←ᵣ resolve whole;
  part ←ᵣ resolve part;
  Ret (bool_decide ((part, whole) ∈ PART_OF T)).

(** [{p for (p, w) in PART_OF if w == node}] *)
Definition direct_parts (node : string) : gset string :=
  list_to_set (filter (λ pw, pw.2 = node) (PART_OF T)).*1.

(** [{c for (c, parent) in IS_A if parent == node}], the local [subclasses]
    of [has_part_transitive] *)
Definition direct_subclasses (node : string) : gset string :=
  list_to_set (filter (λ cp, cp.2 = node) (IS_A T)).*1.

(** [{w for (pp, w) in PART_OF if pp == p}] *)
Definition child_wholes (p : string) : gset string :=
  list_to_set (filter (λ pw, pw.1 = p) (PART_OF T)).*2.

(** The loop [for p in direct_parts: if is_a_transitive(part, p): return
    True]; the result says whether it returned. *)
Fixpoint subsumed (part : string) (ps : list string) : res bool :=
  match ps with
  | [] => Ret false
  | p :: ps =>
      r ←ᵣ is_a_transitive part p;
      if (r : bool) then Ret true else subsumed part ps
  end.

(** [queue.update(...)]: a [collections.deque] has no method [update]. *)
Definition no_update : exn :=
  AttributeError "'collections.deque' object has no attribute 'update'".

Definition deque_update (queue : list string) (xs : gset string)
    : res (list string) :=
  Raise no_update.

(** The loop [for p in direct_parts: queue.update(child_wholes)]. *)
Fixpoint nested_parts (ps : list string) (queue : list string)
    : res (list string) :=
  match ps with
  | [] => Ret queue
  | p :: ps =>
      queue ←ᵣ deque_update queue (child_wholes p);
      nested_parts ps queue
  end.

Fixpoint has_part_loop (part : string) (fuel : nat) (visited : gset string)
    (queue : list string) : res bool :=
  match fuel with
  | 0 => Timeout
  | S fuel =>
      match queue with
      | [] => Ret false
      | node :: queue =>
          if decide (node ∈ visited) then has_part_loop part fuel visited queue
          else
            let visited := {[node]} ∪ visited in
            let parts := direct_parts node in
            if decide (part ∈ parts) then Ret true
            else
              found ←ᵣ subsumed part (elements parts);
              if (found : bool) then Ret true
              else
                let queue := queue ++ elements (direct_subclasses node) in
                queue ←ᵣ nested_parts (elements parts) queue;
                has_part_loop part fuel visited queue
      end
  end.

(** The classes that have a subclass, and their subclasses in iteration
    order. *)
Definition parents : gset string := list_to_set (IS_A T).*2.

Definition subclass_list (node : string) : list string :=
  elements (direct_subclasses node).

(** Only subclasses ever enter the queue and each node is expanded once:
    [total_degree parents subclass_list + 2] iterations are enough (see
    [has_part_transitive_terminates]). *)
Definition has_part_transitive (whole part : string) : res bool :=
  whole ←ᵣ resolve whole;
  part ←ᵣ resolve part;
  has_part_loop part (total_degree parents subclass_list + 2) ∅ [whole].

(** *** [neighbors] and [connected] *)

(** What the generator yields for an already resolved [term], in order. *)
Definition neighbors_of (term : string) : list string :=
  succs IS_A_INDEX term ++ succs PART_OF_INDEX term
  ++ succs HAS_PROPERTY_INDEX term ++ succs INSTANCE_OF_INDEX term
  ++ (filter (λ cp, cp.2 = term) (IS_A T)).*1
  ++ (filter (λ pw, pw.2 = term) (PART_OF T)).*1
  ++ (filter (λ sp, sp.2 = term) (HAS_PROPERTY T)).*1
  ++ (jc ← INSTANCE_OF T;
      if decide (jc.2 = term ∨ jc.1 = term) then [jc.1; jc.2] else []).

Definition neighbors (term : string) : res (list string) :=
  term ←ᵣ resolve term;
  Ret (neighbors_of term).

(** The [for nxt in neighbors(node)] loop of [connected]; [None] stands for
    its [return True]. *)
Fixpoint scan_neighbors (b : string) (visited : gset string)
    (nxts : list string) (queue : list string) : option (list string) :=
  match nxts with
  | [] => Some queue
  | nxt :: nxts =>
      if decide (nxt = b) then None
      else if decide (nxt ∈ visited) then scan_neighbors b visited nxts queue
      else scan_neighbors b visited nxts (queue ++ [nxt])
  end.

Fixpoint connected_loop (b : string) (fuel : nat) (visited : gset string)
    (queue : list string) : res bool :=
  match fuel with
  | 0 => Timeout
  | S fuel =>
      match queue with
      | [] => Ret false
      | node :: queue =>
          if decide (node ∈ visited) then connected_loop b fuel visited queue
          else
            let visited := {[node]} ∪ visited in
            nxts ←ᵣ neighbors node;
            match scan_neighbors b visited nxts queue with
            | None => Ret true
            | Some queue => connected_loop b fuel visited queue
            end
      end
  end.

(** Every identifier that occurs in a pair of some table. *)
Definition nodes : gset string :=
  let all := IS_A T ++ PART_OF T ++ HAS_PROPERTY T ++ INSTANCE_OF T in
  list_to_set all.*1 ∪ list_to_set all.*2.

(** What [neighbors] yields, nothing when it raises. *)
Definition yielded (x : string) : list string :=
  match neighbors x with
  | Ret l => l
  | _ => []
  end.

(** A node is expanded once and only tabled identifiers are queued:
    [total_degree ({[a]} ∪ nodes) yielded + 2] iterations are enough. *)
Definition connected (a b : string) : res bool :=
  a ←ᵣ resolve a;
  b ←ᵣ resolve b;
  if decide (a = b) then Ret true
  else connected_loop b (total_degree ({[a]} ∪ nodes) yielded + 2) ∅ [a].

Definition connected_names (name_a name_b : string) : res bool :=
  connected name_a name_b.

End reasoning.

(** *** The tables of the module *)

Definition db_CLASSES : list string :=
  ["entity"; "physical_object"; "organism"; "animal"; "plant"; "vertebrate";
   "invertebrate"; "mammal"; "bird"; "fish"; "reptile"; "amphibian";
   "arthropod"; "canine"; "feline"; "dog"; "wolf"; "fox"; "cat"; "lion";
   "sparrow"; "eagle"; "salmon"; "tuna"; "snake"; "lizard"; "spider";
   "beetle"; "oak"; "rose"; "body_part"; "appendage"; "tail"; "leg"; "wing";
   "head"; "eye"; "fur"; "feather"; "fin"; "scale"; "skin"].

Definition db_IS_A : list (string * string) :=
  [("physical_object", "entity"); ("organism", "physical_object");
   ("animal", "organism"); ("plant", "organism"); ("vertebrate", "animal");
   ("invertebrate", "animal"); ("mammal", "vertebrate");
   ("bird", "vertebrate"); ("fish", "vertebrate"); ("reptile", "vertebrate");
   ("amphibian", "vertebrate"); ("arthropod", "invertebrate");
   ("canine", "mammal"); ("feline", "mammal"); ("dog", "canine");
   ("wolf", "canine"); ("fox", "canine"); ("cat", "feline");
   ("lion", "feline"); ("sparrow", "bird"); ("eagle", "bird");
   ("salmon", "fish"); ("tuna", "fish"); ("snake", "reptile");
   ("lizard", "reptile"); ("spider", "arthropod"); ("beetle", "arthropod");
   ("oak", "plant"); ("rose", "plant"); ("body_part", "physical_object");
   ("appendage", "body_part"); ("tail", "appendage"); ("leg", "appendage");
   ("wing", "appendage"); ("head", "body_part"); ("eye", "body_part");
   ("fur", "body_part"); ("feather", "body_part"); ("fin", "appendage");
   ("scale", "body_part"); ("skin", "body_part")].

Definition db_PART_OF : list (string * string) :=
  [("head", "vertebrate"); ("eye", "head"); ("leg", "vertebrate");
   ("skin", "vertebrate"); ("tail", "mammal"); ("tail", "reptile");
   ("wing", "bird"); ("fin", "fish"); ("feather", "bird"); ("fur", "mammal");
   ("scale", "reptile")].

Definition db_HAS_PROPERTY : list (string * string) :=
  [("tail", "fur"); ("wing", "feather"); ("snake", "scale"); ("fish", "fin")].

Definition db_INSTANCE_OF : list (string * string) :=
  [("rex", "dog"); ("bim", "dog"); ("murka", "cat"); ("simba", "cat");
   ("akela", "wolf"); ("ghost", "wolf"); ("alisa", "fox"); ("todd", "fox");
   ("mufasa", "lion"); ("nala", "lion"); ("chirpy", "sparrow");
   ("jack", "sparrow"); ("freedom", "eagle"); ("storm", "eagle");
   ("silver", "salmon"); ("red", "salmon"); ("bluefin", "tuna");
   ("yellowfin", "tuna"); ("kaa", "snake"); ("viper", "snake");
   ("gecko", "lizard"); ("iguana", "lizard"); ("charlotte", "spider");
   ("aragog", "spider"); ("scarab", "beetle"); ("ladybug", "beetle");
   ("oak1", "oak"); ("oak2", "oak"); ("rose1", "rose"); ("rose2", "rose")].

Definition db_ALIASES : list (string * string) :=
  [("собака", "dog"); ("пес", "dog"); ("dog", "dog"); ("кіт", "cat");
   ("кішка", "cat"); ("cat", "cat"); ("вовк", "wolf"); ("wolf", "wolf");
   ("лисиця", "fox"); ("fox", "fox"); ("лев", "lion"); ("lion", "lion");
   ("птах", "bird"); ("bird", "bird"); ("риба", "fish"); ("fish", "fish");
   ("ссавець", "mammal"); ("mammal", "mammal"); ("хребетний", "vertebrate");
   ("vertebrate", "vertebrate"); ("безхребетний", "invertebrate");
   ("invertebrate", "invertebrate"); ("плазун", "reptile");
   ("reptile", "reptile"); ("земноводне", "amphibian");
   ("amphibian", "amphibian"); ("горобець", "sparrow");
   ("sparrow", "sparrow"); ("орел", "eagle"); ("eagle", "eagle");
   ("лосось", "salmon"); ("salmon", "salmon"); ("тунець", "tuna");
   ("tuna", "tuna"); ("змія", "snake"); ("snake", "snake");
   ("ящірка", "lizard"); ("lizard", "lizard"); ("павук", "spider");
   ("spider", "spider"); ("жук", "beetle"); ("beetle", "beetle");
   ("дуб", "oak"); ("oak", "oak"); ("троянда", "rose"); ("rose", "rose");
   ("хвіст", "tail"); ("tail", "tail"); ("шерсть", "fur"); ("fur", "fur");
   ("перо", "feather"); ("feather", "feather"); ("крило", "wing");
   ("wing", "wing"); ("око", "eye"); ("eye", "eye"); ("голова", "head");
   ("head", "head"); ("луска", "scale"); ("scale", "scale");
   ("шкіра", "skin"); ("skin", "skin")].

(** A dict literal: a later entry for the same key replaces an earlier one. *)
Definition dict_of (items : list (string * string)) : gmap string string :=
  foldl (λ m kv, <[kv.1 := kv.2]> m) ∅ items.

Definition db : tables :=
  mkTables (list_to_set db_CLASSES) db_IS_A db_PART_OF db_HAS_PROPERTY
           db_INSTANCE_OF (dict_of db_ALIASES).

End ontology.

(** ** Specification-side notions *)

Import lab_ontology.

(** [y] is a direct target of [x] in the relation [g]. *)
Definition edge_of (g : graph) (x y : string) : Prop := y ∈ get g x.

(** [y] is reachable from [x] in zero or more hops of [g]. *)
Definition reaches (g : graph) : relation string := rtc (edge_of g).

(** A set of nodes that no edge of [g] leaves. *)
Definition closed (g : graph) (S : gset string) : Prop :=
  ∀ x y, x ∈ S → edge_of g x y → y ∈ S.

(** [(source, relation, target)] is an edge that the store holds. *)
Definition stored (O : Ontology) (e : edge) : Prop :=
  edge_of (rels O e.1.2) e.1.1 e.2.

(** One hop along any of the three relations, directed as stored. *)
Definition step (O : Ontology) (x y : string) : Prop :=
  ∃ r, edge_of (rels O r) x y.

Definition reaches_any (O : Ontology) : relation string := rtc (step O).

(** Consecutive elements chain target to source. *)
Definition chains (p : list edge) : Prop :=
  ∀ i e1 e2, p !! i = Some e1 → p !! S i = Some e2 → e1.2 = e2.1.1.

Definition first_source (a : string) (p : list edge) : Prop :=
  ∀ e, head p = Some e → e.1.1 = a.

Definition last_target (b : string) (p : list edge) : Prop :=
  ∀ e, last p = Some e → e.2 = b.

(** [p] leads from [a] to [b], edge after edge. *)
Fixpoint walk (a : string) (p : list edge) (b : string) : Prop :=
  match p with
  | [] => a = b
  | e :: p => e.1.1 = a ∧ walk e.2 p b
  end.

(** The edges that [prev] records from the start node up to [y]. *)
Inductive trail (prev : prevmap) : string → list edge → Prop :=
  | trail_root y : prev !! y = Some None → trail prev y []
  | trail_step y x r p :
      prev !! y = Some (Some (x, r)) → trail prev x p →
      trail prev y (p ++ [(x, r, y)]).

(** A chain of [k] classes that starts at [x] and descends along [is_a]
    edges, each class a direct subclass of the one before. *)
Inductive descent (g : graph) : string → nat → Prop :=
  | descent_one x : descent g x 1
  | descent_child x c k : edge_of g c x → descent g c k → descent g x (S k).

(** The longest such chain from [root] has exactly [k] classes. *)
Definition depth_exactly (O : Ontology) (root : string) (k : nat) : Prop :=
  descent (rel_is_a O) root k ∧ ∀ m, descent (rel_is_a O) root m → m ≤ k.

(** No chain that descends from [x] has more than [k] classes. *)
Fixpoint height_le (O : Ontology) (k : nat) (x : string) : bool :=
  match k with
  | 0 => false
  | S k => forallb (height_le O k) (elements (subclasses O x))
  end.

(** The leaf classes, in the order in which [validate] meets them. *)
Definition leaves (O : Ontology) : list string :=
  filter (λ c, is_leaf_class O c = true) (elements (classes O)).

(** ** Invariants and measures used in the proofs *)

(** Edge endpoints are registered classes, and the instances are the keys of
    the assignment, whose values are registered classes. *)
Record well_formed (O : Ontology) : Prop := {
  wf_edges : ∀ r x y, edge_of (rels O r) x y → x ∈ classes O ∧ y ∈ classes O;
  wf_instances : dom (instance_of O) = instances O;
  wf_assigned : ∀ i c, instance_of O !! i = Some c → c ∈ classes O;
}.

(** An identifier that the store does not know. *)
Definition absent (O : Ontology) (x : string) : Prop :=
  (x ∉ classes O) ∧ (x ∉ instances O).

(** Identifiers that a construction sequence uses as classes, and as
    instances. *)
Definition ids_classes (ops : list op) : gset string := ⋃ (op_classes <$> ops).
Definition ids_instances (ops : list op) : gset string := ⋃ (op_instances <$> ops).

(** What [prev] promises about a discovered node. *)
Definition discovered (O : Ontology) (a : string) (prev : prevmap) (y : string)
    : Prop :=
  ∃ p, trail prev y p ∧ length p < size prev ∧ walk a p y ∧ Forall (stored O) p.

(** The loop invariant; [cur] is the node being expanded, if any. *)
Record bfs_inv (O : Ontology) (a b : string) (cur : option string)
    (prev : prevmap) (q : queue) : Prop := {
  inv_start : a ∈ dom prev;
  inv_discovered : ∀ y, y ∈ dom prev → discovered O a prev y;
  inv_queue : ∀ z, z ∈ q.*1 → z ∈ dom prev;
  inv_expanded : ∀ z, z ∈ dom prev →
    Some z = cur ∨ z ∈ q.*1 ∨ (z ≠ b ∧ ∀ y, step O z y → y ∈ dom prev);
}.

Definition budget (O : Ontology) (st : prevmap * queue) : nat :=
  length st.2 + size (all_targets O ∖ dom st.1).

(** Expanding a node whose descents have at most [k] classes uses finitely
    many iterations and leaves the rest of the stack as it was. *)
Definition unwinds (O : Ontology) (k : nat) (x : string) : Prop :=
  ∀ d rest best, ∃ n best',
    (∀ fuel, max_depth_loop (build_down (rel_is_a O)) (n + fuel) best ((x, d) :: rest)
             = max_depth_loop (build_down (rel_is_a O)) fuel best' rest) ∧
    best ≤ best' ∧ best' ≤ best `max` (d + k - 1) ∧
    ∀ m, descent (rel_is_a O) x m → d + m - 1 ≤ best'.

(** A non-empty set of classes, each of which has a direct subclass in the
    set: an [is_a] cycle, or a chain into one. *)
Definition endless (g : graph) (C : gset string) : Prop :=
  ∀ x, x ∈ C → ∃ c, c ∈ C ∧ edge_of g c x.

(** Every leaf class has at least two instances. *)
Definition leaves_populated (O : Ontology) : Prop :=
  ∀ c, c ∈ leaves O → 2 ≤ length (instances_of O c).

(** In the walk back along [prev], [z] is [n] edges away from the start. *)
Definition level (prev : prevmap) (z : string) (n : nat) : Prop :=
  ∃ p, trail prev z p ∧ length p = n.

(** [z] can be reached from [a] along [n] stored edges. *)
Definition within (O : Ontology) (a : string) (n : nat) (z : string) : Prop :=
  ∃ p, walk a p z ∧ Forall (stored O) p ∧ length p = n.

(** The levels of the breadth-first search: the node being expanded is at
    level [k], the queue holds nodes of level [k] followed by nodes of level
    [k + 1], recorded levels are minimal, and every node within [k] edges of
    the start is already discovered. *)
Record bfs_levels (O : Ontology) (a : string) (k : nat) (cur : option string)
    (prev : prevmap) (q : queue) : Prop := {
  lv_min : ∀ z n m, level prev z n → within O a m z → n ≤ m;
  lv_cur : ∀ x, cur = Some x → level prev x k;
  lv_queue : ∃ q1 q2, q.*1 = q1 ++ q2 ∧ (∀ z, z ∈ q1 → level prev z k)
                      ∧ (∀ z, z ∈ q2 → level prev z (S k));
  lv_known : ∀ z m, within O a m z → m ≤ k → z ∈ dom prev;
}.

(** ** Sample stores *)

(** A cycle of three parts, and an instance of one of them. *)
Definition ring_ops : list op :=
  [AddPartOf "hub" "rim"; AddPartOf "rim" "spoke"; AddPartOf "spoke" "hub";
   AddInstance "hub-7" "hub"].

Definition ring_store : Ontology := build ring_ops.

(** The whole of a part is also registered as an instance of another class. *)
Definition overlap_store : Ontology :=
  build [AddPartOf "blade" "rotor"; AddInstance "blade-1" "blade";
         AddInstance "rotor" "spare"].

(** The class of an instance is itself registered as an instance. *)
Definition nested_store : Ontology :=
  build [AddInstance "blade-1" "blade"; AddInstance "blade" "spare"].

(** A curriculum: a chain of four classes below the root, [topics] further
    leaf classes with two instances each, and the given instances of the
    deepest class. *)
Definition topic (n : nat) : string := "Topic " +:+ pretty n.

Definition curriculum_ops (topics : nat) (deepest : list string) : list op :=
  [AddIsA "Algorithms" "Computer Science";
   AddIsA "Graph Algorithms" "Algorithms";
   AddIsA "Shortest Path" "Graph Algorithms"]
  ++ (n ← seq 1 topics;
      [AddIsA (topic n) "Computer Science";
       AddInstance (topic n +:+ " (a)") (topic n);
       AddInstance (topic n +:+ " (b)") (topic n)])
  ++ ((λ i, AddInstance i "Shortest Path") <$> deepest).

Definition curriculum (topics : nat) (deepest : list string) : Ontology :=
  build (curriculum_ops topics deepest).

Import ontology.

(** An identifier that [resolve] does not know: neither an alias, nor a
    class, nor named in [INSTANCE_OF]. *)
Definition unknown (T : tables) (name : string) : Prop :=
  ALIASES T !! strip name = None ∧ (strip name ∉ CLASSES T) ∧
  (strip name ∉ (INSTANCE_OF T).*1) ∧ (strip name ∉ (INSTANCE_OF T).*2).

(** The canonical tokens: what [resolve] can return, and what the tables
    relate. *)
Definition tokens (T : tables) : gset string :=
  map_img (ALIASES T) ∪ CLASSES T ∪ nodes T.

(** Every canonical token resolves to itself. *)
Definition canonical (T : tables) : Prop :=
  set_Forall (λ x, resolve T x = Ret x) (tokens T).

(** The same tables, their sets of pairs iterated in another order. *)
Definition same_tables (T T' : tables) : Prop :=
  CLASSES T = CLASSES T' ∧ ALIASES T = ALIASES T' ∧
  IS_A T ≡ₚ IS_A T' ∧ PART_OF T ≡ₚ PART_OF T' ∧
  HAS_PROPERTY T ≡ₚ HAS_PROPERTY T' ∧ INSTANCE_OF T ≡ₚ INSTANCE_OF T'.

(** One step of the search of [part_of_transitive]: from a part to a whole
    of it, or from a class to a direct superclass. *)
Definition climb (T : tables) (x y : string) : Prop :=
  (x, y) ∈ PART_OF T ∨ (x, y) ∈ IS_A T.

(** [w] is [whole] or an ancestor of it, and [node] is a direct part of [w]. *)
Definition part_link (T : tables) (whole node : string) : Prop :=
  ∃ w, (node, w) ∈ PART_OF T ∧ rtc (edge_of (IS_A_INDEX T)) whole w.

(** [n] is [whole] or a class below it, by direct subclass links. *)
Definition descendant (T : tables) (whole n : string) : Prop :=
  rtc (λ x c, (c, x) ∈ IS_A T) whole n.

(** One undirected hop of the connectivity search. *)
Definition adjacent (T : tables) (x y : string) : Prop := y ∈ yielded T x.

#[global] Instance exn_eq_dec : EqDecision exn.
Proof. solve_decision. Defined.

#[global] Instance res_eq_dec {A} `{EqDecision A} : EqDecision (res A).
Proof. solve_decision. Defined.

(** * Proofs *)

(** ** Iteration budgets *)

Lemma sum_list_perm (l1 l2 : list nat) : l1 ≡ₚ l2 → sum_list l1 = sum_list l2.
Proof. induction 1; simpl; lia. Qed.

Lemma weight_empty V nb : weight V nb ∅ = total_degree V nb.
Proof. unfold weight. f_equal. set_solver. Qed.

Lemma weight_visit V nb seen x :
  x ∈ V → x ∉ seen →
  weight V nb seen = length (nb x) + weight V nb ({[x]} ∪ seen).
Proof.
  intros HV Hseen. unfold weight, total_degree.
  assert (Hsplit : V ∖ seen = {[x]} ∪ V ∖ ({[x]} ∪ seen)).
  { apply set_eq. intros y. destruct (decide (y = x)); set_solver. }
  rewrite Hsplit at 1.
  rewrite (sum_list_perm _ ((λ y, length (nb y)) <$> x :: elements (V ∖ ({[x]} ∪ seen)))).
  - reflexivity.
  - apply fmap_Permutation, elements_union_singleton. set_solver.
Qed.

Lemma weight_skip V nb seen x :
  x ∉ V → weight V nb ({[x]} ∪ seen) = weight V nb seen.
Proof. intros HV. unfold weight. f_equal. set_solver. Qed.

(** ** Small facts on [get], [succs] and the construction of edges *)

Lemma elem_of_succs g x y : y ∈ succs g x ↔ edge_of g x y.
Proof. unfold succs, edge_of. apply elem_of_elements. Qed.

Lemma succs_outside g x : x ∉ dom g → succs g x = [].
Proof.
  intros Hx. unfold succs, get. apply not_elem_of_dom in Hx. rewrite Hx. simpl.
  apply elements_empty.
Qed.

Lemma get_add_edge g x y u :
  get (add_edge g x y) u = if decide (x = u) then {[y]} ∪ get g x else get g u.
Proof.
  unfold add_edge, get at 1. rewrite lookup_insert. by case_decide; subst.
Qed.

Lemma edge_of_add_edge g x y u v :
  edge_of (add_edge g x y) u v ↔ (u = x ∧ v = y) ∨ edge_of g u v.
Proof.
  unfold edge_of. rewrite get_add_edge. case_decide; subst; set_solver.
Qed.

(** ** [_reachable]: termination and correctness of the depth-first search *)

Section dfs.

Context (g : graph) (target : string).

Lemma push_all_app ys stack : push_all ys stack = reverse ys ++ stack.
Proof.
  revert stack. induction ys as [|y ys IH]; intros stack; simpl; [done|].
  unfold push_all in *. simpl. rewrite IH, reverse_cons, <- app_assoc. done.
Qed.

Lemma length_push_all ys stack :
  length (push_all ys stack) = length ys + length stack.
Proof. rewrite push_all_app, length_app, length_reverse. done. Qed.

Lemma elem_of_push_all y ys stack : y ∈ push_all ys stack ↔ y ∈ ys ∨ y ∈ stack.
Proof. rewrite push_all_app, elem_of_app, elem_of_reverse. done. Qed.

Lemma reachable_loop_total fuel seen stack :
  length stack + weight (dom g) (succs g) seen < fuel →
  ∃ b, reachable_loop g target fuel seen stack = Ret b.
Proof.
  revert seen stack. induction fuel as [|fuel IH]; intros seen stack Hlt; [lia|].
  destruct stack as [|x stack]; simpl; [by eexists|].
  destruct (decide (x = target)); [by eexists|].
  destruct (decide (x ∈ seen)) as [Hin|Hnin].
  - apply IH. simpl in Hlt. lia.
  - apply IH. rewrite length_push_all. simpl in Hlt.
    destruct (decide (x ∈ dom g)) as [Hd|Hd].
    + rewrite (weight_visit _ _ _ x) in Hlt by done. lia.
    + rewrite succs_outside, weight_skip by done. simpl. lia.
Qed.

(** A [True] answer comes with a chain of edges from a stacked node. *)
Lemma reachable_loop_true fuel seen stack :
  reachable_loop g target fuel seen stack = Ret true →
  ∃ x, x ∈ stack ∧ reaches g x target.
Proof.
  revert seen stack. induction fuel as [|fuel IH]; intros seen stack; [done|].
  destruct stack as [|x stack]; simpl; [done|].
  destruct (decide (x = target)) as [->|Hne].
  { intros _. exists target. split; [left|]. apply rtc_refl. }
  destruct (decide (x ∈ seen)).
  - intros (y & Hy & Hr)%IH. exists y. split; [by right|done].
  - intros (y & Hy & Hr)%IH. apply elem_of_push_all in Hy as [Hy|Hy].
    + exists x. split; [left|]. eapply rtc_l; [|done]. by apply elem_of_succs.
    + exists y. split; [by right|done].
Qed.

(** A [False] answer comes with a closed set that holds the stacked nodes
    and not the target. *)
Lemma reachable_loop_false fuel seen stack :
  reachable_loop g target fuel seen stack = Ret false →
  target ∉ seen →
  (∀ x y, x ∈ seen → edge_of g x y → y ∈ seen ∨ y ∈ stack) →
  ∃ X, seen ⊆ X ∧ (∀ x, x ∈ stack → x ∈ X) ∧ (target ∉ X) ∧ closed g X.
Proof.
  revert seen stack. induction fuel as [|fuel IH]; intros seen stack; [done|].
  destruct stack as [|x stack]; simpl.
  { intros _ Ht Hinv. exists seen. split_and!; [done|by inversion 1|done|].
    intros x y Hx Hxy. destruct (Hinv x y Hx Hxy) as [?|Hy]; [done|by inversion Hy]. }
  destruct (decide (x = target)) as [->|Hne]; [done|].
  destruct (decide (x ∈ seen)) as [Hin|Hnin].
  - intros Hloop Ht Hinv. destruct (IH _ _ Hloop Ht) as (S & HS1 & HS2 & HS3 & HS4).
    { intros u v Hu Huv. destruct (Hinv u v Hu Huv) as [?|Hv]; [by left|].
      apply elem_of_cons in Hv as [->|?]; [by left|by right]. }
    exists S. split_and!; [done| |done|done].
    intros u [->|?]%elem_of_cons; [set_solver|auto].
  - intros Hloop Ht Hinv.
    destruct (IH _ _ Hloop) as (S & HS1 & HS2 & HS3 & HS4); [set_solver| |].
    { intros u v Hu Huv. rewrite elem_of_push_all.
      apply elem_of_union in Hu as [->%elem_of_singleton|Hu].
      - right. left. by apply elem_of_succs.
      - destruct (Hinv u v Hu Huv) as [?|Hv]; [left; set_solver|].
        apply elem_of_cons in Hv as [->|?]; [left; set_solver|by right; right]. }
    exists S. split_and!; [set_solver| |done|done].
    intros u [->|Hu]%elem_of_cons; [set_solver|].
    apply HS2, elem_of_push_all. by right.
Qed.

Lemma closed_reaches S x y : closed g S → x ∈ S → reaches g x y → y ∈ S.
Proof. intros HS Hx Hr. induction Hr; eauto. Qed.

End dfs.

Lemma reachable_total O start target r : returns (_reachable O start target r).
Proof.
  unfold returns, _reachable. apply reachable_loop_total.
  rewrite weight_empty. unfold edge_count. simpl. lia.
Qed.

(** [_reachable] decides reachability in the relation it is asked about. *)
Lemma reachable_true_iff O start target r :
  _reachable O start target r = Ret true ↔ reaches (rels O r) start target.
Proof.
  split.
  - intros (x & ->%list_elem_of_singleton & Hr)%reachable_loop_true. done.
  - intros Hr. destruct (reachable_total O start target r) as [[] Hb]; [done|].
    exfalso. apply reachable_loop_false in Hb as (S & _ & HS2 & HS3 & HS4);
      [|set_solver|set_solver].
    apply HS3. eapply closed_reaches; [done| |done]. apply HS2. left.
Qed.

Lemma reachable_false_iff O start target r :
  _reachable O start target r = Ret false ↔ ¬ reaches (rels O r) start target.
Proof.
  rewrite <- reachable_true_iff.
  destruct (reachable_total O start target r) as [[] ->]; naive_solver.
Qed.

Lemma reachable_refl O x r : _reachable O x x r = Ret true.
Proof.
  unfold _reachable. replace (edge_count (rels O r) + 2) with (S (edge_count (rels O r) + 1)) by lia.
  simpl. by rewrite decide_True.
Qed.

(** ** Stores built by the construction operations *)

Lemma well_formed_init : well_formed init.
Proof.
  split; simpl.
  - intros [] x y; unfold edge_of, get; simpl; rewrite lookup_empty; set_solver.
  - apply dom_empty_L.
  - intros i c. by rewrite lookup_empty.
Qed.

Lemma well_formed_add_class O c : well_formed O → well_formed (add_class O c).
Proof.
  intros [He Hi Ha]. split; simpl; [|done|].
  - intros r x y Hxy. assert (Hxy' : edge_of (rels O r) x y) by (by destruct r).
    apply He in Hxy'. set_solver.
  - intros i c' Hic. apply Ha in Hic. set_solver.
Qed.

Lemma well_formed_add_edge O r a b :
  well_formed O → a ∈ classes O → b ∈ classes O →
  well_formed (mkOntology (classes O) (instances O) (instance_of O)
     (if decide (r = R_is_a) then add_edge (rel_is_a O) a b else rel_is_a O)
     (if decide (r = R_part_of) then add_edge (rel_part_of O) a b else rel_part_of O)
     (if decide (r = R_depends_on) then add_edge (rel_depends_on O) a b
      else rel_depends_on O)).
Proof.
  intros [He Hi Ha] Hca Hcb. split; simpl; [|done|done].
  intros r' x y. destruct r, r'; simpl; rewrite ?edge_of_add_edge;
    intros Hxy; try (destruct Hxy as [[-> ->]|Hxy]; [done|]);
    first [by apply (He R_is_a) in Hxy | by apply (He R_part_of) in Hxy
          | by apply (He R_depends_on) in Hxy].
Qed.

Lemma well_formed_apply_op O o : well_formed O → well_formed (apply_op O o).
Proof.
  intros Hwf. destruct o as [c|a b|a b|a b|i c]; simpl.
  - by apply well_formed_add_class.
  - apply (well_formed_add_edge (add_class (add_class O a) b) R_is_a a b);
      [by do 2 apply well_formed_add_class|simpl; set_solver..].
  - apply (well_formed_add_edge (add_class (add_class O a) b) R_part_of a b);
      [by do 2 apply well_formed_add_class|simpl; set_solver..].
  - apply (well_formed_add_edge (add_class (add_class O a) b) R_depends_on a b);
      [by do 2 apply well_formed_add_class|simpl; set_solver..].
  - destruct (well_formed_add_class O c Hwf) as [He Hi Ha]. split; simpl.
    + done.
    + rewrite dom_insert_L. simpl in Hi. by rewrite Hi.
    + intros j c'. rewrite lookup_insert. case_decide; [intros [= <-]; set_solver|].
      apply Ha.
Qed.

Lemma build_snoc ops o : build (ops ++ [o]) = apply_op (build ops) o.
Proof. unfold build. by rewrite foldl_app. Qed.

Lemma well_formed_build ops : well_formed (build ops).
Proof.
  induction ops as [|o ops IH] using rev_ind; [apply well_formed_init|].
  rewrite build_snoc. by apply well_formed_apply_op.
Qed.

Lemma reaches_from_absent O r x y :
  well_formed O → absent O x → reaches (rels O r) x y → y = x.
Proof.
  intros Hwf [Hx _] Hr. destruct Hr as [|x y z Hxy _]; [done|].
  apply Hwf in Hxy. tauto.
Qed.

Lemma reaches_to_absent O r x y :
  well_formed O → absent O y → reaches (rels O r) x y → x = y.
Proof.
  intros Hwf [Hy _] Hr. induction Hr as [|x y z Hxy _ IH]; [done|].
  specialize (IH Hy). subst. apply Hwf in Hxy. tauto.
Qed.

Lemma reachable_absent O r x y :
  well_formed O → (absent O x ∨ absent O y) → x ≠ y →
  _reachable O x y r = Ret false.
Proof.
  intros Hwf Habs Hne. apply reachable_false_iff. intros Hr.
  destruct Habs as [Hx|Hy].
  - apply reaches_from_absent in Hr; done.
  - apply reaches_to_absent in Hr; done.
Qed.

Lemma part_of_unfold O part whole :
  part_of O part whole =
    direct ←ᵣ _reachable O part whole R_part_of;
    if (direct : bool) then Ret true
    else _reachable O (lift O part) (lift O whole) R_part_of.
Proof. reflexivity. Qed.

Lemma lift_absent O x : absent O x → lift O x = x.
Proof. intros [_ Hx]. unfold lift. by rewrite decide_False. Qed.

Lemma lift_registered O x :
  well_formed O → lift O x = x ∨ lift O x ∈ classes O.
Proof.
  intros Hwf. unfold lift. case_decide; [|by left].
  destruct (instance_of O !! x) as [c|] eqn:Hc; simpl; [|by left].
  right. by eapply wf_assigned.
Qed.

Lemma part_of_absent O x y :
  well_formed O → (absent O x ∨ absent O y) → x ≠ y →
  part_of O x y = Ret false.
Proof.
  intros Hwf Habs Hne. rewrite part_of_unfold.
  rewrite reachable_absent by done. simpl.
  destruct Habs as [Hx|Hy].
  - rewrite (lift_absent O x) by done. apply reachable_absent; [done|by left|].
    destruct (lift_registered O y Hwf) as [->|Hc]; [done|].
    intros ->. by destruct Hx.
  - rewrite (lift_absent O y) by done. apply reachable_absent; [done|by right|].
    destruct (lift_registered O x Hwf) as [->|Hc]; [done|].
    intros <-. by destruct Hy.
Qed.

(** ** Classes and instances of a construction sequence *)

Lemma classes_apply_op O o : classes (apply_op O o) = classes O ∪ op_classes o.
Proof. destruct o; simpl; set_solver. Qed.

Lemma instances_apply_op O o :
  instances (apply_op O o) = instances O ∪ op_instances o.
Proof. destruct o; simpl; set_solver. Qed.

Lemma classes_build ops : classes (build ops) = ids_classes ops.
Proof.
  unfold ids_classes. induction ops as [|o ops IH] using rev_ind; [done|].
  rewrite build_snoc, classes_apply_op, IH, fmap_app, union_list_app_L. simpl.
  set_solver.
Qed.

Lemma instances_build ops : instances (build ops) = ids_instances ops.
Proof.
  unfold ids_instances. induction ops as [|o ops IH] using rev_ind; [done|].
  rewrite build_snoc, instances_apply_op, IH, fmap_app, union_list_app_L. simpl.
  set_solver.
Qed.

(** ** [any_path]: termination and correctness of the breadth-first search *)

Lemma walk_app a p1 c p2 b : walk a p1 c → walk c p2 b → walk a (p1 ++ p2) b.
Proof.
  revert a. induction p1 as [|e p1 IH]; simpl; intros a.
  - by intros ->.
  - intros [-> H1] H2. split; [done|]. by apply IH.
Qed.

Lemma walk_reaches O a p b :
  Forall (stored O) p → walk a p b → reaches_any O a b.
Proof.
  intros Hst. revert a. induction Hst as [|[[s r] t] p Hs _ IH]; simpl; intros a.
  - intros ->. apply rtc_refl.
  - intros [<- Hw]. eapply rtc_l; [by exists r|by apply IH].
Qed.

Lemma walk_chains a p b : walk a p b → chains p.
Proof.
  revert a. induction p as [|e p IH]; intros a; [by intros _ []|].
  intros [_ Hw] [|i] e1 e2; simpl.
  - intros [= <-] He2. destruct p as [|e' p]; [done|].
    simpl in He2. injection He2 as <-. by destruct Hw.
  - by apply (IH _ Hw).
Qed.

Lemma walk_first_source a p b : walk a p b → first_source a p.
Proof. destruct p; [by intros _ ?|]. by intros [? _] ? [= <-]. Qed.

Lemma walk_last_target a p b : walk a p b → last_target b p.
Proof.
  revert a. induction p as [|e p IH]; intros a; [by intros _ ?|].
  intros [_ Hw] e'. destruct p as [|e2 p]; [|by apply (IH _ Hw)].
  simpl in *. by intros [= <-].
Qed.

Lemma trail_insert prev z v y p :
  prev !! z = None → trail prev y p → trail (<[z:=v]> prev) y p.
Proof.
  intros Hz. induction 1 as [y Hy|y x r p Hy _ IH].
  - apply trail_root. rewrite lookup_insert_ne; [done|congruence].
  - apply trail_step; [|done]. rewrite lookup_insert_ne; [done|congruence].
Qed.

Lemma walk_back_trail prev y p :
  trail prev y p → ∀ fuel acc, length p < fuel →
  walk_back prev fuel y acc = Ret (acc ++ reverse p).
Proof.
  induction 1 as [y Hy|y x r p Hy _ IH]; intros fuel acc Hlt.
  - destruct fuel; [simpl in Hlt; lia|]. simpl. rewrite Hy.
    by rewrite reverse_nil, app_nil_r.
  - rewrite length_app in Hlt. simpl in Hlt.
    destruct fuel; [lia|]. simpl. rewrite Hy.
    rewrite IH by lia. by rewrite reverse_app, <- app_assoc.
Qed.

Lemma size_difference_fresh (U D : gset string) y :
  y ∈ U → y ∉ D → size (U ∖ D) = S (size (U ∖ ({[y]} ∪ D))).
Proof.
  intros HU HD.
  assert (Hsplit : U ∖ D = {[y]} ∪ U ∖ ({[y]} ∪ D)).
  { apply set_eq. intros z. destruct (decide (z = y)); set_solver. }
  rewrite Hsplit at 1. rewrite size_union by set_solver.
  by rewrite size_singleton.
Qed.

Lemma elem_of_targets g x y : edge_of g x y → y ∈ targets g.
Proof.
  unfold edge_of, targets. intros Hy. apply elem_of_union_list.
  exists (get g x). split; [|done]. apply list_elem_of_fmap. exists x.
  split; [done|]. apply elem_of_elements, elem_of_dom.
  unfold get in Hy. destruct (g !! x); [done|]. set_solver.
Qed.

Lemma elem_of_all_targets O r x y : edge_of (rels O r) x y → y ∈ all_targets O.
Proof.
  intros Hy%elem_of_targets. unfold all_targets. destruct r; set_solver.
Qed.

Section bfs.

Context (O : Ontology) (a b : string).

Lemma discovered_insert prev z v y :
  prev !! z = None → discovered O a prev y → discovered O a (<[z:=v]> prev) y.
Proof.
  intros Hz (p & Ht & Hlen & Hw & Hst). exists p. split_and!; [|  |done|done].
  - by apply trail_insert.
  - rewrite map_size_insert_None by done. lia.
Qed.

Lemma visit_targets_inv x r ys st :
  bfs_inv O a b (Some x) st.1 st.2 → x ∈ dom st.1 →
  (∀ y, y ∈ ys → edge_of (rels O r) x y) →
  let st' := visit_targets x r ys st in
  bfs_inv O a b (Some x) st'.1 st'.2 ∧ dom st.1 ⊆ dom st'.1 ∧
  (∀ y, y ∈ ys → y ∈ dom st'.1) ∧ budget O st' = budget O st.
Proof.
  revert st. induction ys as [|y ys IH]; intros [prev q] Hinv Hx Hys; simpl in *.
  { split_and!; [done|done|by intros ? ?%elem_of_nil|done]. }
  destruct (decide (y ∈ dom prev)) as [Hy|Hy].
  - destruct (IH (prev, q)) as (H1 & H2 & H3 & H4); [done|done|set_solver|].
    split_and!; [done|done| |done].
    intros z [->|Hz]%elem_of_cons; [by apply H2|by apply H3].
  - assert (Hnone : prev !! y = None) by by apply not_elem_of_dom.
    assert (Hedge : edge_of (rels O r) x y) by (apply Hys; left).
    destruct (IH (<[y:=Some (x, r)]> prev, q ++ [(y, Some r)]))
      as (H1 & H2 & H3 & H4); simpl.
    + destruct Hinv as [I1 I2 I3 I4]. split; simpl in *.
      * rewrite dom_insert_L. set_solver.
      * intros z. rewrite dom_insert_L.
        intros [->%elem_of_singleton|Hz]%elem_of_union.
        -- destruct (I2 x Hx) as (p & Ht & Hlen & Hw & Hst).
           exists (p ++ [(x, r, y)]). split_and!.
           ++ apply trail_step; [by rewrite lookup_insert_eq|by apply trail_insert].
           ++ rewrite length_app, map_size_insert_None by done. simpl. lia.
           ++ eapply walk_app; [done|]. by simpl.
           ++ apply Forall_app. split; [done|]. by apply Forall_singleton.
        -- apply discovered_insert; auto.
      * intros z. rewrite fmap_app, dom_insert_L. simpl. set_solver.
      * intros z. rewrite fmap_app, dom_insert_L. simpl.
        intros [->%elem_of_singleton|Hz]%elem_of_union; [set_solver|].
        destruct (I4 z Hz) as [?|[?|[? Hcl]]]; [by left|set_solver|].
        right; right. split; [done|]. intros y' Hy'. set_solver.
    + rewrite dom_insert_L. set_solver.
    + set_solver.
    + simpl in *. split_and!; [done| | |].
      * rewrite dom_insert_L in H2. set_solver.
      * intros z [->|Hz]%elem_of_cons; [|by apply H3].
        apply H2. rewrite dom_insert_L. set_solver.
      * rewrite H4. unfold budget. simpl. rewrite dom_insert_L, length_app. simpl.
        rewrite (size_difference_fresh _ (dom prev) y); [lia| |done].
        by eapply elem_of_all_targets.
Qed.

Lemma expand_inv x st :
  bfs_inv O a b (Some x) st.1 st.2 → x ∈ dom st.1 →
  let st' := expand O x st in
  bfs_inv O a b (Some x) st'.1 st'.2 ∧ (∀ y, step O x y → y ∈ dom st'.1) ∧
  budget O st' = budget O st.
Proof.
  intros H0 Hx st'. subst st'. unfold expand, relnames. cbn [foldl].
  destruct (visit_targets_inv x R_is_a (succs (rels O R_is_a) x) st)
    as (H1 & D1 & C1 & B1); [done|done|by intros ? ?%elem_of_succs|].
  destruct (visit_targets_inv x R_part_of (succs (rels O R_part_of) x) _ H1)
    as (H2 & D2 & C2 & B2); [by apply D1|by intros ? ?%elem_of_succs|].
  destruct (visit_targets_inv x R_depends_on (succs (rels O R_depends_on) x) _ H2)
    as (H3 & D3 & C3 & B3); [by apply D2, D1|by intros ? ?%elem_of_succs|].
  split_and!; [done| |by rewrite B3, B2, B1].
  intros y [[] Hy]; [apply D3, D2, C1|apply D3, C2|apply C3]; by apply elem_of_succs.
Qed.

Lemma any_path_loop_spec fuel prev q :
  bfs_inv O a b None prev q → budget O (prev, q) < fuel →
  ∃ result, any_path_loop O b fuel prev q = Ret result ∧
    match result with
    | Some p => walk a p b ∧ Forall (stored O) p
    | None => ∃ X : gset string, a ∈ X ∧ (b ∉ X) ∧ ∀ x y, x ∈ X → step O x y → y ∈ X
    end.
Proof.
  revert prev q. induction fuel as [|fuel IH]; intros prev q Hinv Hlt; [lia|].
  destruct q as [|[x o] q]; simpl.
  - exists None. split; [done|]. destruct Hinv as [I1 I2 I3 I4].
    exists (dom prev). split_and!; [done| |].
    + intros Hb. destruct (I4 b Hb) as [?|[?%elem_of_nil|[? _]]]; done.
    + intros x y Hx Hxy.
      destruct (I4 x Hx) as [?|[?%elem_of_nil|[_ Hcl]]]; [done|done|by apply Hcl].
  - destruct (decide (x = b)) as [->|Hne].
    + destruct Hinv as [I1 I2 I3 I4].
      destruct (I2 b) as (p & Ht & Hlen & Hw & Hst); [apply I3; simpl; left|].
      rewrite (walk_back_trail _ _ _ Ht) by done. simpl.
      exists (Some p). by rewrite reverse_involutive.
    + assert (Hx : x ∈ dom prev) by (apply Hinv; simpl; left).
      destruct (expand_inv x (prev, q)) as (H1 & Hcl & Hb); [|done|].
      { destruct Hinv as [I1 I2 I3 I4]. split; simpl in *; [done|done|set_solver|].
        intros z Hz. destruct (I4 z Hz) as [?|[[->|?]%elem_of_cons|?]];
          [done|by left|by right; left|by right; right]. }
      apply IH.
      * destruct H1 as [I1 I2 I3 I4]. split; [done|done|done|].
        intros z Hz. destruct (I4 z Hz) as [[= ->]|[?|?]];
          [right; right; done|by right; left|by right; right].
      * unfold budget in *. simpl in *. lia.
Qed.

End bfs.

Lemma any_path_spec O a b :
  ∃ result, any_path O a b = Ret result ∧
    match result with
    | Some p => walk a p b ∧ Forall (stored O) p
    | None => ¬ reaches_any O a b
    end.
Proof.
  destruct (any_path_loop_spec O a b (size (all_targets O) + 2) {[a := None]} [(a, None)])
    as (result & Hres & Hspec).
  - split; simpl.
    + rewrite dom_singleton_L. set_solver.
    + intros y. rewrite dom_singleton_L. intros ->%elem_of_singleton.
      exists []. split_and!; [|rewrite map_size_singleton; simpl; lia|done|done].
      apply trail_root. by rewrite lookup_singleton_eq.
    + set_solver.
    + intros z. rewrite dom_singleton_L. intros ->%elem_of_singleton.
      right; left. set_solver.
  - unfold budget. simpl.
    assert (size (all_targets O ∖ dom ({[a := None]} : prevmap)) ≤ size (all_targets O)).
    { apply subseteq_size. set_solver. }
    lia.
  - exists result. split; [done|]. destruct result as [p|]; [done|].
    destruct Hspec as (X & Ha & Hb & Hcl). intros Hr. apply Hb.
    clear Hres Hb. induction Hr; eauto.
Qed.

(** ** [max_depth_from] and [validate] *)

Lemma edge_of_iff g x y : edge_of g x y ↔ ∃ s, g !! x = Some s ∧ y ∈ s.
Proof.
  unfold edge_of, get. destruct (g !! x) as [s|]; simpl; [naive_solver|].
  split; [set_solver|]. by intros (? & ? & _).
Qed.

Lemma edge_of_add_parents down c ps u v :
  edge_of (foldl (λ dn p, add_edge dn p c) down ps) u v ↔
  (u ∈ ps ∧ v = c) ∨ edge_of down u v.
Proof.
  revert down. induction ps as [|p ps IH]; intros down; simpl.
  - split; [by right|]. intros [[?%elem_of_nil _]|?]; done.
  - rewrite IH, edge_of_add_edge, elem_of_cons. naive_solver.
Qed.

Lemma edge_of_add_items down (items : list (string * gset string)) u v :
  edge_of (foldl (λ (dn : graph) (item : string * gset string),
                    foldl (λ dn p, add_edge dn p item.1) dn (elements item.2))
                 down items) u v ↔
  (∃ item, item ∈ items ∧ u ∈ item.2 ∧ v = item.1) ∨ edge_of down u v.
Proof.
  revert down. induction items as [|item items IH]; intros down; simpl.
  - split; [by right|]. intros [(? & ?%elem_of_nil & _)|?]; done.
  - rewrite IH, edge_of_add_parents, elem_of_elements. split.
    + intros [(it & ? & ?)|[[? ->]|?]]; [left; exists it|left; exists item|by right];
        set_solver.
    + intros [(it & [->|?]%elem_of_cons & ? & ?)|?]; [by right; left| |by right; right].
      left. by exists it.
Qed.

(** [down] is the inverse of the [is_a] graph. *)
Lemma edge_of_build_down g p c : edge_of (build_down g) p c ↔ edge_of g c p.
Proof.
  unfold build_down. rewrite edge_of_add_items, (edge_of_iff g). split.
  - intros [([c' s] & Hin%elem_of_map_to_list & ? & ->)|He]; [by exists s|].
    apply edge_of_iff in He as (? & He & _). by rewrite lookup_empty in He.
  - intros (s & Hs & Hp). left. exists (c, s).
    split; [by apply elem_of_map_to_list|done].
Qed.

Lemma elem_of_subclasses O c x : x ∈ subclasses O c ↔ edge_of (rel_is_a O) x c.
Proof.
  unfold subclasses. rewrite elem_of_dom, edge_of_iff. split.
  - intros [s (Hs & ?)%map_lookup_filter_Some]. by exists s.
  - intros (s & Hs & ?). exists s. by apply map_lookup_filter_Some.
Qed.

Lemma push_children_app chs d stack :
  push_children chs d stack = ((λ ch, (ch, d + 1)) <$> reverse chs) ++ stack.
Proof.
  revert stack. unfold push_children.
  induction chs as [|ch chs IH]; intros stack; simpl; [done|].
  by rewrite IH, reverse_cons, fmap_app, <- app_assoc.
Qed.

Lemma descent_pos g x k : descent g x k → 1 ≤ k.
Proof. destruct 1; lia. Qed.

Section depth.

Context (O : Ontology).

Lemma unwinds_list k d (chs : list string) :
  (∀ c, c ∈ chs → unwinds O k c) →
  ∀ rest best, ∃ n best',
    (∀ fuel, max_depth_loop (build_down (rel_is_a O)) (n + fuel) best
               (((λ ch, (ch, d)) <$> chs) ++ rest)
             = max_depth_loop (build_down (rel_is_a O)) fuel best' rest) ∧
    best ≤ best' ∧ best' ≤ best `max` (d + k - 1) ∧
    ∀ c m, c ∈ chs → descent (rel_is_a O) c m → d + m - 1 ≤ best'.
Proof.
  induction chs as [|c chs IH]; intros Hall rest best.
  - exists 0, best. split_and!; [done|lia|lia|by intros ?? ?%elem_of_nil].
  - destruct (Hall c ltac:(left) d (((λ ch, (ch, d)) <$> chs) ++ rest) best)
      as (n1 & b1 & E1 & L1 & U1 & D1).
    destruct (IH (λ c' Hc', Hall c' ltac:(by right)) rest b1)
      as (n2 & b2 & E2 & L2 & U2 & D2).
    exists (n1 + n2), b2. split_and!.
    + intros fuel. simpl. rewrite <- Nat.add_assoc, E1. apply E2.
    + lia.
    + lia.
    + intros c' m [->|Hc]%elem_of_cons Hm; [|by eapply D2].
      specialize (D1 m Hm). lia.
Qed.

Lemma unwinds_height k x :
  (∀ m, descent (rel_is_a O) x m → m ≤ k) → unwinds O k x.
Proof.
  revert x. induction k as [|k IH]; intros x Hk.
  { specialize (Hk 1 (descent_one _ x)). lia. }
  intros d rest best.
  destruct (unwinds_list k (d + 1) (reverse (succs (build_down (rel_is_a O)) x)))
    with (rest := rest) (best := best `max` d) as (n & b' & E & L & U & D).
  { intros c Hc%elem_of_reverse%elem_of_succs.
    apply (proj1 (edge_of_build_down _ _ _)) in Hc. apply IH.
    intros m Hm. specialize (Hk (S m) (descent_child _ x c m Hc Hm)). lia. }
  exists (S n), b'. split_and!.
  - intros fuel. simpl. rewrite push_children_app. apply E.
  - lia.
  - lia.
  - intros m Hm. destruct Hm as [x|x c m Hc Hm]; [lia|].
    assert (d + 1 + m - 1 ≤ b'); [|lia].
    eapply D; [|done].
    by apply elem_of_reverse, elem_of_succs, (proj2 (edge_of_build_down _ _ _)).
Qed.

Lemma max_depth_from_exact root k :
  root ∈ classes O → depth_exactly O root k →
  ∃ n, ∀ fuel, n ≤ fuel → max_depth_from fuel O root = Ret k.
Proof.
  intros Hroot [Hk Hmax].
  destruct (unwinds_height k root Hmax 1 [] 0) as (n & b' & E & L & U & D).
  exists (S n). intros fuel Hfuel. unfold max_depth_from. rewrite decide_True by done.
  replace fuel with (n + S (fuel - S n)) by lia. rewrite E. simpl.
  f_equal. specialize (D k Hk). apply descent_pos in Hk. lia.
Qed.

Lemma height_le_sound k x :
  height_le O k x = true → ∀ m, descent (rel_is_a O) x m → m ≤ k.
Proof.
  revert x. induction k as [|k IH]; intros x; simpl; [done|].
  intros Hall m Hm. destruct Hm as [x|x c m Hc Hm]; [lia|].
  rewrite forallb_forall in Hall. apply le_n_S, (IH c); [|done].
  apply Hall, list_elem_of_In, elem_of_elements, elem_of_subclasses. done.
Qed.

End depth.

Lemma check_leaves_ok O l :
  (∀ c, c ∈ l → 2 ≤ length (instances_of O c)) → check_leaves O l = Ret true.
Proof.
  induction l as [|c l IH]; intros Hall; simpl; [done|].
  rewrite decide_False; [|specialize (Hall c ltac:(left)); lia].
  apply IH. intros c' Hc'. apply Hall. by right.
Qed.

Lemma check_leaves_single O l c n :
  c ∈ l → length (instances_of O c) = n → n < 2 →
  (∀ c', c' ∈ l → c' ≠ c → 2 ≤ length (instances_of O c')) →
  check_leaves O l = Raise (AssertionError (leaf_msg c n)).
Proof.
  intros Hc Hn Hlt. induction l as [|c' l IH]; intros Hall; [by apply elem_of_nil in Hc|].
  simpl. destruct (decide (c' = c)) as [->|Hne].
  - rewrite decide_True by lia. by rewrite Hn.
  - rewrite decide_False; [|specialize (Hall c' ltac:(left) Hne); lia].
    apply elem_of_cons in Hc as [->|Hc]; [done|].
    apply IH; [done|]. intros c'' Hc''. apply Hall. by right.
Qed.

Lemma elem_of_leaves O c : c ∈ leaves O ↔ c ∈ classes O ∧ is_leaf_class O c = true.
Proof. unfold leaves. rewrite list_elem_of_filter, elem_of_elements. tauto. Qed.

Lemma validate_few_classes fuel O :
  size (classes O) < 20 →
  validate fuel O = Raise (AssertionError (class_count_msg (size (classes O)))).
Proof. intros Hlt. unfold validate. rewrite decide_False by lia. done. Qed.

Lemma validate_depth_ok fuel O d :
  20 ≤ size (classes O) → max_depth_from fuel O "Computer Science" = Ret d →
  4 ≤ d → validate fuel O = check_leaves O (leaves O).
Proof.
  intros Hc Hd Hle. unfold validate. rewrite decide_True by done.
  rewrite Hd. simpl. by rewrite decide_True by done.
Qed.

(** ** [src/ontology.py]: [resolve] and [is_a_transitive] *)

Lemma resolve_unknown T name :
  unknown T name → resolve T name = Raise (KeyError ("Unknown term: " +:+ name)).
Proof.
  intros (Ha & Hc & Hi1 & Hi2). unfold resolve. rewrite Ha.
  rewrite decide_False by done. rewrite decide_False; [done|].
  rewrite elem_of_union, !elem_of_list_to_set. tauto.
Qed.

Lemma resolve_known T name : ¬ unknown T name → returns (resolve T name).
Proof.
  intros Hu. unfold returns, resolve, unknown in *.
  destruct (ALIASES T !! strip name); [by eexists|].
  case_decide; [by eexists|]. case_decide as Hi; [by eexists|]. destruct Hu.
  rewrite elem_of_union, !elem_of_list_to_set in Hi. tauto.
Qed.

Lemma is_a_transitive_unknown_ancestor T x y :
  ¬ unknown T x → unknown T y →
  is_a_transitive T x y = Raise (KeyError ("Unknown term: " +:+ y)).
Proof.
  intros [c Hc]%resolve_known Hy. unfold is_a_transitive.
  by rewrite Hc, (resolve_unknown T y).
Qed.

Lemma connected_unknown_second T x y :
  ¬ unknown T x → unknown T y →
  connected T x y = Raise (KeyError ("Unknown term: " +:+ y)).
Proof.
  intros [c Hc]%resolve_known Hy. unfold connected.
  by rewrite Hc, (resolve_unknown T y).
Qed.

(** White space that is not ASCII is stripped as well. *)
Lemma resolve_strips_white_space :
  resolve db (no_break_space +:+ " dog" +:+ ideographic_space) = Ret "dog".
Proof. compute_done. Qed.

Lemma resolve_tokens T name c : resolve T name = Ret c → c ∈ tokens T.
Proof.
  unfold resolve, tokens, nodes.
  destruct (ALIASES T !! strip name) as [c'|] eqn:Ha.
  { intros [= <-]. do 2 apply elem_of_union_l. by eapply elem_of_map_img_2. }
  case_decide; [intros [= <-]; set_solver|].
  case_decide as Hi; [|done]. intros [= <-]. apply elem_of_union_r.
  rewrite !fmap_app, !list_to_set_app_L. set_solver.
Qed.

Lemma is_a_transitive_refl T x : returns (resolve T x) → is_a_transitive T x x = Ret true.
Proof.
  intros [c Hc]. unfold is_a_transitive. rewrite Hc. simpl. by rewrite decide_True.
Qed.

Lemma is_a_transitive_unknown T x y :
  unknown T x →
  is_a_transitive T x y = Raise (KeyError ("Unknown term: " +:+ x)).
Proof. intros Hx. unfold is_a_transitive. by rewrite resolve_unknown. Qed.

Lemma connected_unknown T x y :
  unknown T x → connected T x y = Raise (KeyError ("Unknown term: " +:+ x)).
Proof. intros Hx. unfold connected. by rewrite resolve_unknown. Qed.

Lemma resolve_terminates T name : resolve T name ≠ Timeout.
Proof. unfold resolve. by repeat case_match. Qed.

Lemma scan_parents_length ancestor ps queue queue' :
  scan_parents ancestor ps queue = Some queue' →
  length queue' = length queue + length ps.
Proof.
  revert queue. induction ps as [|p ps IH]; intros queue; simpl.
  - intros [= <-]. lia.
  - case_decide; [done|]. intros ->%IH. rewrite length_app. simpl. lia.
Qed.

Lemma is_a_loop_terminates T ancestor fuel visited queue :
  length queue + weight (dom (IS_A_INDEX T)) (succs (IS_A_INDEX T)) visited < fuel →
  is_a_loop T ancestor fuel visited queue ≠ Timeout.
Proof.
  revert visited queue. induction fuel as [|fuel IH]; intros visited queue Hlt; [lia|].
  destruct queue as [|x queue]; simpl; [done|]. simpl in Hlt.
  case_decide as Hx; [apply IH; lia|].
  destruct (scan_parents _ _ _) as [queue'|] eqn:Hscan; [|done].
  apply scan_parents_length in Hscan. apply IH. rewrite Hscan.
  destruct (decide (x ∈ dom (IS_A_INDEX T))) as [Hd|Hd].
  - rewrite (weight_visit _ _ _ x) in Hlt by done. lia.
  - rewrite succs_outside, weight_skip by done. simpl. lia.
Qed.

Lemma is_a_transitive_terminates T child ancestor :
  is_a_transitive T child ancestor ≠ Timeout.
Proof.
  unfold is_a_transitive.
  destruct (resolve T child) as [c| |] eqn:Hc; simpl;
    [|done|by apply resolve_terminates in Hc].
  destruct (resolve T ancestor) as [a| |] eqn:Ha; simpl;
    [|done|by apply resolve_terminates in Ha].
  case_decide; [done|]. apply is_a_loop_terminates.
  rewrite weight_empty. unfold edge_count. simpl. lia.
Qed.

(** ** [has_part_transitive] never runs out of budget *)

Lemma subsumed_terminates T part ps : subsumed T part ps ≠ Timeout.
Proof.
  induction ps as [|p ps IH]; simpl; [done|].
  pose proof (is_a_transitive_terminates T part p).
  destruct (is_a_transitive T part p) as [[]| |]; done.
Qed.

Lemma nested_parts_cases T ps queue :
  nested_parts T ps queue = Ret queue ∨ nested_parts T ps queue = Raise no_update.
Proof. destruct ps; [by left|by right]. Qed.

Lemma subclass_list_outside T x : x ∉ parents T → subclass_list T x = [].
Proof.
  intros Hx. unfold subclass_list.
  assert (direct_subclasses T x = ∅) as ->; [|apply elements_empty].
  apply set_eq. intros c. unfold direct_subclasses.
  rewrite elem_of_list_to_set, list_elem_of_fmap. split; [|set_solver].
  intros ([c' x'] & -> & [Hx' Hin]%list_elem_of_filter). simpl in *. subst x'.
  destruct Hx. unfold parents. apply elem_of_list_to_set, list_elem_of_fmap.
  by exists (c', x).
Qed.

Lemma has_part_loop_terminates T part fuel visited queue :
  length queue + weight (parents T) (subclass_list T) visited < fuel →
  has_part_loop T part fuel visited queue ≠ Timeout.
Proof.
  revert visited queue. induction fuel as [|fuel IH]; intros visited queue Hlt; [lia|].
  destruct queue as [|x queue]; simpl; [done|]. simpl in Hlt.
  case_decide as Hx; [apply IH; lia|].
  case_decide; [done|].
  pose proof (subsumed_terminates T part (elements (direct_parts T x))) as Hsub.
  destruct (subsumed T part _) as [[]| |]; simpl; [done| |done|done].
  destruct (nested_parts_cases T (elements (direct_parts T x))
              (queue ++ elements (direct_subclasses T x))) as [-> | ->]; [|done].
  simpl. apply IH. rewrite length_app.
  change (elements (direct_subclasses T x)) with (subclass_list T x).
  destruct (decide (x ∈ parents T)) as [Hp|Hp].
  - rewrite (weight_visit _ _ _ x) in Hlt by done. lia.
  - rewrite subclass_list_outside, weight_skip by done. simpl. lia.
Qed.

(** The query returns a boolean or raises: it does not loop. *)
Lemma has_part_transitive_terminates T whole part :
  has_part_transitive T whole part ≠ Timeout.
Proof.
  unfold has_part_transitive.
  destruct (resolve T whole) as [w| |] eqn:Hw; simpl;
    [|done|by apply resolve_terminates in Hw].
  destruct (resolve T part) as [p'| |] eqn:Hp; simpl;
    [|done|by apply resolve_terminates in Hp].
  apply has_part_loop_terminates. rewrite weight_empty. simpl. lia.
Qed.

(** ** [connected]: termination, correctness and symmetry *)

Lemma edge_of_build_index edges x y : edge_of (build_index edges) x y ↔ (x, y) ∈ edges.
Proof.
  unfold build_index.
  assert (Hgen : ∀ index, edge_of (foldl (λ index ab, add_edge index ab.1 ab.2) index edges) x y
                          ↔ (x, y) ∈ edges ∨ edge_of index x y).
  { induction edges as [|[u v] edges IH]; intros index; simpl.
    - split; [by right|]. intros [?%elem_of_nil|?]; done.
    - rewrite IH, edge_of_add_edge, elem_of_cons. naive_solver. }
  rewrite Hgen. split; [|by left]. intros [?|He]; [done|].
  apply edge_of_iff in He as (? & He & _). by rewrite lookup_empty in He.
Qed.

Lemma elem_of_index edges x y : y ∈ succs (build_index edges) x ↔ (x, y) ∈ edges.
Proof. by rewrite elem_of_succs, edge_of_build_index. Qed.

Lemma elem_of_sources (edges : list (string * string)) x y :
  y ∈ (filter (λ ab, ab.2 = x) edges).*1 ↔ (y, x) ∈ edges.
Proof.
  rewrite list_elem_of_fmap. split.
  - intros ([u v] & -> & [Hv ?]%list_elem_of_filter). simpl in *. by subst.
  - intros Hin. exists (y, x). split; [done|]. by apply list_elem_of_filter.
Qed.

(** What [neighbors] yields for a resolved term [x]. *)
Lemma elem_of_neighbors_of T x y :
  y ∈ neighbors_of T x ↔
    (x, y) ∈ IS_A T ∨ (x, y) ∈ PART_OF T ∨ (x, y) ∈ HAS_PROPERTY T
    ∨ (x, y) ∈ INSTANCE_OF T
    ∨ (y, x) ∈ IS_A T ∨ (y, x) ∈ PART_OF T ∨ (y, x) ∈ HAS_PROPERTY T
    ∨ ∃ i c, (i, c) ∈ INSTANCE_OF T ∧ (c = x ∨ i = x) ∧ (y = i ∨ y = c).
Proof.
  unfold neighbors_of, IS_A_INDEX, PART_OF_INDEX, HAS_PROPERTY_INDEX, INSTANCE_OF_INDEX.
  rewrite !elem_of_app, !elem_of_index, !elem_of_sources, list_elem_of_bind.
  do 7 apply or_iff_compat_l. split.
  - intros ([i c] & Hy & Hin). simpl in Hy. exists i, c. split; [done|].
    case_decide; [|by apply elem_of_nil in Hy]. split; [done|]. set_solver.
  - intros (i & c & Hin & Hx & Hy). exists (i, c). split; [|done]. simpl.
    rewrite decide_True by done. set_solver.
Qed.

Lemma neighbors_of_sym T x y : y ∈ neighbors_of T x → x ∈ neighbors_of T y.
Proof.
  rewrite !elem_of_neighbors_of.
  intros [?|[?|[?|[?|[?|[?|[?|(i & c & Hin & Hx & Hy)]]]]]]]; try tauto.
  - do 7 right. exists x, y. tauto.
  - do 7 right. exists i, c. naive_solver.
Qed.

Lemma elem_of_nodes T x y :
  (x, y) ∈ IS_A T ∨ (x, y) ∈ PART_OF T ∨ (x, y) ∈ HAS_PROPERTY T
  ∨ (x, y) ∈ INSTANCE_OF T → x ∈ nodes T ∧ y ∈ nodes T.
Proof.
  intros Hin. unfold nodes.
  assert (Hall : (x, y) ∈ IS_A T ++ PART_OF T ++ HAS_PROPERTY T ++ INSTANCE_OF T).
  { rewrite !elem_of_app. tauto. }
  split; [apply elem_of_union_l|apply elem_of_union_r];
    apply elem_of_list_to_set, list_elem_of_fmap; by exists (x, y).
Qed.

Lemma neighbors_of_nodes T x y : y ∈ neighbors_of T x → y ∈ nodes T.
Proof.
  rewrite elem_of_neighbors_of.
  intros [?|[?|[?|[?|[?|[?|[?|(i & c & Hin & Hx & [->| ->])]]]]]]];
    try (by eapply (elem_of_nodes T x y); tauto);
    try (by eapply (elem_of_nodes T y x); tauto).
  - eapply (elem_of_nodes T i c); tauto.
  - eapply (elem_of_nodes T i c); tauto.
Qed.

Lemma yielded_nodes T x y : adjacent T x y → y ∈ nodes T.
Proof.
  unfold adjacent, yielded, neighbors. destruct (resolve T x); simpl;
    [apply neighbors_of_nodes|by intros ?%elem_of_nil..].
Qed.

Lemma neighbors_cases T x :
  neighbors T x = Ret (yielded T x) ∨ ∃ e, neighbors T x = Raise e.
Proof.
  unfold yielded. destruct (neighbors T x) eqn:Hn; eauto.
  unfold neighbors, resolve in Hn. by repeat (case_match; simplify_eq/=).
Qed.

Section bfs_connected.

Context (T : tables) (b : string).

Lemma scan_neighbors_found visited nxts queue :
  scan_neighbors b visited nxts queue = None ↔ b ∈ nxts.
Proof.
  revert queue. induction nxts as [|y nxts IH]; intros queue; simpl.
  - split; [done|by intros ?%elem_of_nil].
  - rewrite elem_of_cons. destruct (decide (y = b)) as [->|Hne]; [by split; auto|].
    case_decide; rewrite IH; naive_solver.
Qed.

Lemma scan_neighbors_queue visited nxts queue queue' :
  scan_neighbors b visited nxts queue = Some queue' →
  length queue' ≤ length queue + length nxts ∧
  ∀ z, z ∈ queue' ↔ z ∈ queue ∨ (z ∈ nxts ∧ z ∉ visited).
Proof.
  revert queue. induction nxts as [|y nxts IH]; intros queue; simpl.
  - intros [= <-]. split; [lia|]. intros z. rewrite elem_of_nil. tauto.
  - destruct (decide (y = b)); [done|]. case_decide as Hv.
    + intros [Hlen Hq]%IH. split; [lia|]. intros z. rewrite Hq, elem_of_cons.
      naive_solver.
    + intros [Hlen Hq]%IH. rewrite length_app in Hlen. simpl in Hlen.
      split; [lia|]. intros z. rewrite Hq, elem_of_app, !elem_of_cons, elem_of_nil.
      naive_solver.
Qed.

Lemma connected_loop_terminates (V : gset string) fuel visited queue :
  nodes T ⊆ V → (∀ x, x ∈ queue → x ∈ V) →
  length queue + weight V (yielded T) visited < fuel →
  connected_loop T b fuel visited queue ≠ Timeout.
Proof.
  intros HV. revert visited queue.
  induction fuel as [|fuel IH]; intros visited queue Hq Hlt; [lia|].
  destruct queue as [|x queue]; simpl; [done|].
  case_decide as Hx.
  - apply IH; [set_solver|simpl in Hlt; lia].
  - destruct (neighbors_cases T x) as [->|[e ->]]; [|done]. simpl.
    destruct (scan_neighbors _ _ _ _) as [queue'|] eqn:Hscan; [|done].
    apply scan_neighbors_queue in Hscan as [Hlen Hq'].
    apply IH.
    + intros z [?|[?%yielded_nodes _]]%Hq'; set_solver.
    + rewrite (weight_visit V _ visited x) in Hlt; [|apply Hq; left|done].
      simpl in Hlt. lia.
Qed.

Lemma connected_loop_no_raise fuel visited queue e :
  canonical T → (∀ x, x ∈ queue → x ∈ tokens T) →
  connected_loop T b fuel visited queue ≠ Raise e.
Proof.
  intros Hcan. revert visited queue.
  induction fuel as [|fuel IH]; intros visited queue Hq; [done|].
  destruct queue as [|x queue]; simpl; [done|].
  case_decide as Hx; [apply IH; set_solver|].
  destruct (neighbors_cases T x) as [->|[e' He']].
  - simpl. destruct (scan_neighbors _ _ _ _) as [queue'|] eqn:Hscan; [|done].
    apply scan_neighbors_queue in Hscan as [_ Hq']. apply IH.
    intros z [?|[?%yielded_nodes _]]%Hq'; [set_solver|].
    unfold tokens. set_solver.
  - unfold neighbors in He'. rewrite (Hcan x) in He'; [done|]. apply Hq. left.
Qed.

(** A [True] answer comes with a chain of at least one hop. *)
Lemma connected_loop_true fuel visited queue :
  connected_loop T b fuel visited queue = Ret true →
  ∃ x y, x ∈ queue ∧ rtc (adjacent T) x y ∧ adjacent T y b.
Proof.
  revert visited queue. induction fuel as [|fuel IH]; intros visited queue; [done|].
  destruct queue as [|x queue]; simpl; [done|].
  case_decide as Hx.
  { intros (x' & y & ? & ?)%IH. exists x', y. split; [by right|done]. }
  destruct (neighbors_cases T x) as [->|[e ->]]; [|done]. simpl.
  destruct (scan_neighbors _ _ _ _) as [queue'|] eqn:Hscan.
  - apply scan_neighbors_queue in Hscan as [_ Hq'].
    intros (x' & y & [?|[Hadj _]]%Hq' & Hr & Hb)%IH.
    + exists x', y. split; [by right|done].
    + exists x, y. split; [left|]. split; [|done]. by eapply rtc_l.
  - apply scan_neighbors_found in Hscan. intros _.
    exists x, x. split; [left|]. split; [apply rtc_refl|done].
Qed.

(** A [False] answer comes with a set that holds the queued nodes, that no
    hop leaves, and from which no hop leads to [b]. *)
Lemma connected_loop_false fuel visited queue :
  connected_loop T b fuel visited queue = Ret false →
  (∀ x y, x ∈ visited → adjacent T x y → y ≠ b ∧ (y ∈ visited ∨ y ∈ queue)) →
  ∃ X : gset string, (∀ x, x ∈ queue → x ∈ X) ∧
    ∀ x y, x ∈ X → adjacent T x y → y ≠ b ∧ y ∈ X.
Proof.
  revert visited queue. induction fuel as [|fuel IH]; intros visited queue; [done|].
  destruct queue as [|x queue]; simpl.
  { intros _ Hinv. exists visited. split; [by intros ? ?%elem_of_nil|].
    intros x y Hx Hxy. destruct (Hinv x y Hx Hxy) as [? [?|?%elem_of_nil]]; done. }
  case_decide as Hx.
  - intros Hloop Hinv. destruct (IH _ _ Hloop) as (X & HX1 & HX2).
    + intros u v Hu Huv. destruct (Hinv u v Hu Huv) as [? [?|[->|?]%elem_of_cons]]; auto.
    + exists (X ∪ visited). split; [intros u [->|?]%elem_of_cons; set_solver|].
      intros u v [Hu|Hu]%elem_of_union Huv.
      * destruct (HX2 u v Hu Huv). set_solver.
      * destruct (Hinv u v Hu Huv) as [? [?|[->|?]%elem_of_cons]]; set_solver.
  - destruct (neighbors_cases T x) as [->|[e ->]]; [|done]. simpl.
    destruct (scan_neighbors _ _ _ _) as [queue'|] eqn:Hscan; [|done].
    assert (Hb : b ∉ yielded T x).
    { intros Hb%(scan_neighbors_found ({[x]} ∪ visited) _ queue). congruence. }
    apply scan_neighbors_queue in Hscan as [_ Hq'].
    intros Hloop Hinv. destruct (IH _ _ Hloop) as (X & HX1 & HX2).
    + intros u v [->%elem_of_singleton|Hu]%elem_of_union Huv.
      * split; [by intros ->|]. rewrite Hq'.
        destruct (decide (v ∈ {[x]} ∪ visited)); [by left|by right; right].
      * destruct (Hinv u v Hu Huv) as [? [?|[->|?]%elem_of_cons]];
          (split; [done|]); rewrite ?Hq'; set_solver.
    + exists (X ∪ ({[x]} ∪ visited)). split; [intros u [->|?]%elem_of_cons; set_solver|].
      intros u v [Hu|[->%elem_of_singleton|Hu]%elem_of_union]%elem_of_union Huv.
      * destruct (HX2 u v Hu Huv). set_solver.
      * split; [by intros ->|].
        destruct (decide (v ∈ {[x]} ∪ visited)); [set_solver|].
        apply elem_of_union_l, HX1, Hq'. by right.
      * destruct (Hinv u v Hu Huv) as [? [?|[->|?]%elem_of_cons]]; [set_solver..|].
        split; [done|]. apply elem_of_union_l, HX1, Hq'. by left.
Qed.

End bfs_connected.

Lemma adjacent_sym T x y :
  canonical T → x ∈ tokens T → adjacent T x y → adjacent T y x ∧ y ∈ tokens T.
Proof.
  intros Hcan Hx Hxy.
  assert (Hy : y ∈ tokens T).
  { apply yielded_nodes in Hxy. unfold tokens. set_solver. }
  split; [|done]. unfold adjacent, yielded, neighbors in *.
  rewrite (Hcan x Hx) in Hxy. rewrite (Hcan y Hy). simpl in *.
  by apply neighbors_of_sym.
Qed.

Lemma linked_sym T x y :
  canonical T → x ∈ tokens T → rtc (adjacent T) x y → rtc (adjacent T) y x.
Proof.
  intros Hcan Hx Hr. induction Hr as [x|x y z Hxy _ IH]; [done|].
  destruct (adjacent_sym T x y Hcan Hx Hxy) as [Hyx Hy].
  eapply rtc_r; [by apply IH|done].
Qed.

(** Under canonical tables, [connected] answers whether a chain of
    undirected hops links the two resolved identifiers. *)
Lemma connected_spec T a b a' b' :
  canonical T → resolve T a = Ret a' → resolve T b = Ret b' →
  ∃ r : bool, connected T a b = Ret r ∧ (r = true ↔ rtc (adjacent T) a' b').
Proof.
  intros Hcan Ha Hb. unfold connected. rewrite Ha, Hb. simpl.
  destruct (decide (a' = b')) as [->|Hne].
  { exists true. split; [done|]. split; [intros _; apply rtc_refl|done]. }
  pose proof (resolve_tokens _ _ _ Ha) as Hta.
  destruct (connected_loop T b' _ ∅ [a']) as [r|e|] eqn:Hloop.
  - exists r. split; [done|]. destruct r.
    + split; [intros _|done].
      apply connected_loop_true in Hloop
        as (x & y & ->%list_elem_of_singleton & Hr & Hyb).
      eapply rtc_r; done.
    + split; [done|]. intros Hr. exfalso.
      apply connected_loop_false in Hloop as (X & HX1 & HX2); [|set_solver].
      assert (Hin : ∀ z, rtc (adjacent T) a' z → z ∈ X ∧ (z = a' ∨ z ≠ b')).
      { apply (rtc_ind_r (λ z, z ∈ X ∧ (z = a' ∨ z ≠ b'))).
        - split; [apply HX1; left|by left].
        - intros y z _ Hyz [IH1 _]. destruct (HX2 y z IH1 Hyz). auto. }
      destruct (Hin b' Hr) as [_ [?|?]]; congruence.
  - exfalso. eapply connected_loop_no_raise; [done| |done].
    by intros x ->%list_elem_of_singleton.
  - exfalso. eapply (connected_loop_terminates T b' ({[a']} ∪ nodes T)); [| | |done].
    + set_solver.
    + intros x ->%list_elem_of_singleton. set_solver.
    + rewrite weight_empty. simpl. lia.
Qed.

(** * The claims *)

(** ** C1: [has_part_transitive] *)

(** As soon as the search expands a node that has direct parts, none of which
    answers the query, the loop over these parts calls [queue.update] and the
    query raises; this holds for every table and every iteration order. *)
Lemma has_part_loop_raises T part node fuel queue :
  direct_parts T node ≠ ∅ → part ∉ direct_parts T node →
  subsumed T part (elements (direct_parts T node)) = Ret false →
  has_part_loop T part (S fuel) ∅ (node :: queue) = Raise no_update.
Proof.
  intros Hne Hpart Hsub. simpl. rewrite decide_False by set_solver.
  rewrite decide_False by done. rewrite Hsub. simpl.
  destruct (elements (direct_parts T node)) as [|p ps] eqn:Hel; [|done].
  by apply elements_empty_inv, leibniz_equiv in Hel.
Qed.

(** C1 (the code departs from it).  The query terminates
    ([has_part_transitive_terminates]) but need not return a boolean: both
    identifiers here are registered classes, [fur] is a part of [mammal] and
    [mammal] a subclass of [vertebrate]; yet
    [has_part_transitive("vertebrate", "fur")] raises [AttributeError] from
    its traversal, because [queue.update] is called on a [deque]. *)
Theorem has_part_transitive_raises :
  "vertebrate" ∈ CLASSES db ∧ "fur" ∈ CLASSES db ∧
  ("fur", "mammal") ∈ PART_OF db ∧ ("mammal", "vertebrate") ∈ IS_A db ∧
  has_part_transitive db "vertebrate" "fur" = Raise no_update.
Proof. split_and!; compute_done. Qed.

(** ** C2: [add_instance] *)

(** C2 (counterexample).  Assigning [rex] to [dog] and then to [cat] goes
    through, and the first assignment is gone. *)
Lemma add_instance_reassign_cex :
  let O1 := add_instance init "rex" "dog" in
  let O2 := add_instance O1 "rex" "cat" in
  class_of O1 "rex" = Some "dog" ∧ class_of O2 "rex" = Some "cat" ∧
  instances_of O2 "dog" = [] ∧ instances_of O2 "cat" = ["rex"].
Proof. cbv zeta. split_and!; compute_done. Qed.

(** C2 (amended).  [add_instance] never fails: a later call for the same
    instance id replaces the assignment by the class of that call (the last
    writer wins) and registers this class; with the same class it changes
    nothing. *)
Theorem add_instance_last_writer_wins O inst c c' :
  let O' := add_instance (add_instance O inst c) inst c' in
  class_of O' inst = Some c' ∧ inst ∈ instances O' ∧ c' ∈ classes O' ∧
  add_instance (add_instance O inst c) inst c = add_instance O inst c.
Proof.
  split_and!.
  - unfold class_of. simpl. apply lookup_insert_eq.
  - simpl. set_solver.
  - simpl. set_solver.
  - unfold add_instance, add_class. simpl. f_equal.
    + set_solver.
    + set_solver.
    + apply insert_insert_eq.
Qed.

(** ** C3: identifiers absent from the store *)

(** C3 (counterexample).  An identifier the store does not know is reported
    reachable from itself, and [connected] raises for an unknown term. *)
Lemma absent_identifier_cex :
  absent ring_store "ghost" ∧ part_of ring_store "ghost" "ghost" = Ret true ∧
  depends_on ring_store "ghost" "ghost" = Ret true ∧
  unknown db "unicorn" ∧
  connected db "unicorn" "dog" = Raise (KeyError "Unknown term: unicorn") ∧
  is_a_transitive db "dog" "unicorn" = Raise (KeyError "Unknown term: unicorn").
Proof.
  split_and!; compute_done.
Qed.

(** C3 (amended).  In a store built by the construction operations, a query
    of [_reachable], [is_a], [part_of] or [depends_on] between an absent
    identifier and a different identifier returns [False], in either
    position, and never raises; between an identifier and itself every one of
    them returns [True], absent or not.  In [src/ontology.py] the queries
    resolve their operands first, the first operand before the second:
    [is_a_transitive] and [connected] raise [KeyError] as soon as one
    operand is unknown to [resolve], and the message names the first such
    operand as it was given. *)
Theorem absent_identifier_queries :
  (∀ ops x y, absent (build ops) x → x ≠ y →
     (∀ r, _reachable (build ops) x y r = Ret false
           ∧ _reachable (build ops) y x r = Ret false) ∧
     is_a (build ops) x y = Ret false ∧ is_a (build ops) y x = Ret false ∧
     part_of (build ops) x y = Ret false ∧ part_of (build ops) y x = Ret false ∧
     depends_on (build ops) x y = Ret false ∧ depends_on (build ops) y x = Ret false) ∧
  (∀ O x, (∀ r, _reachable O x x r = Ret true) ∧ part_of O x x = Ret true) ∧
  (∀ T x y, unknown T x →
     is_a_transitive T x y = Raise (KeyError ("Unknown term: " +:+ x)) ∧
     connected T x y = Raise (KeyError ("Unknown term: " +:+ x))) ∧
  (∀ T x y, ¬ unknown T x → unknown T y →
     is_a_transitive T x y = Raise (KeyError ("Unknown term: " +:+ y)) ∧
     connected T x y = Raise (KeyError ("Unknown term: " +:+ y))).
Proof.
  split_and!.
  - intros ops x y Hx Hne. pose proof (well_formed_build ops) as Hwf.
    assert (Hr : ∀ r, _reachable (build ops) x y r = Ret false
                      ∧ _reachable (build ops) y x r = Ret false).
    { intros r. split; apply reachable_absent; auto. }
    split_and!; try done; try apply Hr; apply part_of_absent; auto.
  - intros O x. split; [intros r; apply reachable_refl|].
    rewrite part_of_unfold. by rewrite reachable_refl.
  - intros T x y Hx. split; [by apply is_a_transitive_unknown|by apply connected_unknown].
  - intros T x y Hx Hy.
    split; [by apply is_a_transitive_unknown_ancestor|by apply connected_unknown_second].
Qed.

Lemma absent_identifier_queries_witness :
  part_of ring_store "ghost" "rim" = Ret false ∧
  part_of ring_store "hub-7" "ghost" = Ret false ∧
  is_a ring_store "ghost" "ghost" = Ret true ∧
  connected db "unicorn" "dog" = Raise (KeyError "Unknown term: unicorn") ∧
  connected db (no_break_space +:+ "dog") " unicorn"
    = Raise (KeyError "Unknown term:  unicorn") ∧
  is_a_transitive db "dog" "unicorn" = Raise (KeyError "Unknown term: unicorn").
Proof.
  destruct absent_identifier_queries as (H1 & H2 & H3 & H4).
  assert (Hghost : absent ring_store "ghost").
  { split; compute_done. }
  assert (Hunicorn : unknown db "unicorn") by (split_and!; compute_done).
  assert (Hpadded : unknown db " unicorn") by (split_and!; compute_done).
  assert (Hdog : ¬ unknown db "dog") by (unfold unknown; compute_done).
  assert (Hnbdog : ¬ unknown db (no_break_space +:+ "dog"))
    by (unfold unknown; compute_done).
  split_and!.
  - exact (proj1 (proj2 (proj2 (proj2 (H1 ring_ops "ghost" "rim" Hghost ltac:(discriminate)))))).
  - exact (proj1 (proj2 (proj2 (proj2 (proj2
             (H1 ring_ops "ghost" "hub-7" Hghost ltac:(discriminate))))))).
  - exact (proj1 (H2 ring_store "ghost") R_is_a).
  - exact (proj2 (H3 db "unicorn" "dog" Hunicorn)).
  - exact (proj2 (H4 db (no_break_space +:+ "dog") " unicorn" Hnbdog Hpadded)).
  - exact (proj1 (H4 db "dog" "unicorn" Hdog Hunicorn)).
Defined.

Lemma part_of_lifted O i C W :
  i ∈ instances O → instance_of O !! i = Some C → lift O W = W →
  reaches (rels O R_part_of) C W ∨ reaches (rels O R_part_of) i W →
  part_of O i W = Ret true.
Proof.
  intros Hi HC HW Hreach. rewrite part_of_unfold.
  destruct (reachable_total O i W R_part_of) as [[] Hdirect]; rewrite Hdirect; [done|].
  simpl. rewrite HW. unfold lift. rewrite decide_True by done.
  rewrite HC. simpl.
  apply reachable_true_iff. destruct Hreach as [?|Hr]; [done|].
  apply reachable_true_iff in Hr. congruence.
Qed.

Lemma lift_not_instance O x : x ∉ instances O → lift O x = x.
Proof. intros Hx. unfold lift. by rewrite decide_False. Qed.

(** ** C4: lifting an instance to its class *)

(** C4 (counterexample).  [blade-1] is an instance of [blade], and [blade]
    is a part of [rotor]; but [rotor] is also registered as an instance (of
    [spare]), so the retry looks for [spare] and the answer is [False]. *)
Lemma part_of_lifting_cex :
  "blade-1" ∈ instances overlap_store ∧
  class_of overlap_store "blade-1" = Some "blade" ∧
  _reachable overlap_store "blade" "rotor" R_part_of = Ret true ∧
  part_of overlap_store "blade" "rotor" = Ret true ∧
  part_of overlap_store "blade-1" "rotor" = Ret false.
Proof. split_and!; compute_done. Qed.

(** C4 (amended).  For an instance [i] assigned to class [C] and an
    identifier [W] that is not itself a registered instance: if [C] reaches
    [W] along [part_of] edges, or [i] does, then [part_of(i, W)] returns
    [True]. *)
Theorem part_of_instance_lifting O i C W :
  i ∈ instances O → class_of O i = Some C → W ∉ instances O →
  reaches (rels O R_part_of) C W ∨ reaches (rels O R_part_of) i W →
  part_of O i W = Ret true.
Proof.
  intros Hi HC HW Hreach. apply (part_of_lifted O i C W); [done|done| |done].
  by apply lift_not_instance.
Qed.

Lemma part_of_instance_lifting_witness :
  part_of ring_store "hub-7" "spoke" = Ret true.
Proof.
  apply (part_of_instance_lifting ring_store "hub-7" "hub" "spoke").
  - compute_done.
  - compute_done.
  - compute_done.
  - left. apply reachable_true_iff. compute_done.
Defined.

(** ** C5: [any_path] *)

(** C5.  [any_path(a, b)] always returns.  When it returns a sequence, every
    element is a stored edge of its relation, consecutive elements chain, the
    first source is [a] and the last target is [b]; and it returns [None]
    exactly when [b] is not reachable from [a] over the union of the three
    relations, directed as stored. *)
Theorem any_path_valid O a b :
  ∃ result, any_path O a b = Ret result ∧
    (∀ p, result = Some p →
       Forall (stored O) p ∧ chains p ∧ first_source a p ∧ last_target b p) ∧
    (result = None ↔ ¬ reaches_any O a b).
Proof.
  destruct (any_path_spec O a b) as (result & Hres & Hspec).
  exists result. split; [done|]. split.
  - intros p ->. destruct Hspec as [Hw Hst]. split_and!; [done|..].
    + by eapply walk_chains.
    + by eapply walk_first_source.
    + by eapply walk_last_target.
  - destruct result as [p|]; [|done]. destruct Hspec as [Hw Hst].
    split; [done|]. intros Hno. destruct Hno. by eapply walk_reaches.
Qed.

Lemma any_path_valid_witness :
  any_path ring_store "hub" "spoke"
    = Ret (Some [("hub", R_part_of, "rim"); ("rim", R_part_of, "spoke")]) ∧
  Forall (stored ring_store) [("hub", R_part_of, "rim"); ("rim", R_part_of, "spoke")] ∧
  any_path ring_store "hub" "hub-7" = Ret None ∧
  ¬ reaches_any ring_store "hub" "hub-7".
Proof.
  destruct (any_path_valid ring_store "hub" "spoke") as (r1 & E1 & V1 & _).
  destruct (any_path_valid ring_store "hub" "hub-7") as (r2 & E2 & _ & N2).
  assert (H1 : any_path ring_store "hub" "spoke"
    = Ret (Some [("hub", R_part_of, "rim"); ("rim", R_part_of, "spoke")]))
    by compute_done.
  assert (H2 : any_path ring_store "hub" "hub-7" = Ret None) by compute_done.
  rewrite H1 in E1. rewrite H2 in E2.
  injection E1 as <-. injection E2 as <-.
  split_and!; [done|by apply V1|done|by apply N2].
Defined.

(** ** C7: class and instance identifiers *)

(** C7 (counterexample).  Nothing stops an identifier from being registered
    as a class and as an instance. *)
Lemma class_instance_overlap_cex :
  "tail" ∈ classes (build [AddClass "tail"; AddInstance "tail" "dog"]) ∧
  "tail" ∈ instances (build [AddClass "tail"; AddInstance "tail" "dog"]).
Proof. split; compute_done. Qed.

(** C7 (amended).  After a sequence of construction operations the class
    set holds the identifiers the sequence used as classes, the instance set
    those it used as instances; the two sets are disjoint exactly when the
    sequence used no identifier in both roles. *)
Theorem construction_disjoint_iff ops :
  classes (build ops) = ids_classes ops ∧
  instances (build ops) = ids_instances ops ∧
  (instances (build ops) ## classes (build ops)
   ↔ ids_instances ops ## ids_classes ops).
Proof. by rewrite classes_build, instances_build. Qed.

Lemma construction_disjoint_iff_witness :
  instances ring_store ## classes ring_store.
Proof.
  destruct (construction_disjoint_iff ring_ops) as (_ & _ & Hiff).
  apply Hiff. compute_done.
Defined.

(** ** C8: reflexivity *)

(** C8.  [_reachable(x, x, R)] returns [True] for every relation and every
    identifier, in zero hops; [is_a_transitive(x, x)] returns [True] for
    every identifier that [resolve] accepts. *)
Theorem reachable_reflexive :
  (∀ O r x, _reachable O x x r = Ret true) ∧
  (∀ T x, returns (resolve T x) → is_a_transitive T x x = Ret true).
Proof. split; [intros O r x; apply reachable_refl|apply is_a_transitive_refl]. Qed.

Lemma reachable_reflexive_witness :
  _reachable ring_store "rim" "rim" R_depends_on = Ret true ∧
  is_a_transitive db "кіт" "кіт" = Ret true.
Proof.
  split.
  - exact (proj1 reachable_reflexive ring_store R_depends_on "rim").
  - apply (proj2 reachable_reflexive db "кіт"). exists "cat". compute_done.
Defined.

(** ** C10: an instance and its own class *)

(** C10 (counterexample).  [blade-1] is an instance of [blade], but [blade]
    is itself registered as an instance of [spare]: the retry compares
    [blade] with [spare]. *)
Lemma part_of_own_class_cex :
  "blade-1" ∈ instances nested_store ∧
  class_of nested_store "blade-1" = Some "blade" ∧
  part_of nested_store "blade-1" "blade" = Ret false.
Proof. split_and!; compute_done. Qed.

(** C10 (amended).  For a registered instance [i] with assigned class [C],
    where [C] is not itself a registered instance, [part_of(i, C)] returns
    [True], whatever the [part_of] edges are. *)
Theorem part_of_own_class O i C :
  i ∈ instances O → class_of O i = Some C → C ∉ instances O →
  part_of O i C = Ret true.
Proof.
  intros Hi HC HnC. apply (part_of_lifted O i C C); [done|done| |].
  - by apply lift_not_instance.
  - left. apply rtc_refl.
Qed.

Lemma part_of_own_class_witness :
  rel_part_of (build [AddInstance "rex" "dog"]) = ∅ ∧
  part_of (build [AddInstance "rex" "dog"]) "rex" "dog" = Ret true.
Proof.
  split; [done|].
  apply (part_of_own_class (build [AddInstance "rex" "dog"]) "rex" "dog");
    compute_done.
Defined.

(** ** C6: the validator *)

(** C6 (counterexample).  In this store of 19 classes the leaf class
    [Shortest Path] has exactly one instance; the error is the one of the
    class count, and does not name that class. *)
Lemma validate_leaf_cex :
  size (classes (curriculum 15 ["Dijkstra"])) = 19 ∧
  "Shortest Path" ∈ leaves (curriculum 15 ["Dijkstra"]) ∧
  instances_of (curriculum 15 ["Dijkstra"]) "Shortest Path" = ["Dijkstra"] ∧
  ∀ fuel,
    validate fuel (curriculum 15 ["Dijkstra"])
      = Raise (AssertionError "Need ≥20 classes, have 19") ∧
    validate fuel (curriculum 15 ["Dijkstra"])
      ≠ Raise (AssertionError (leaf_msg "Shortest Path" 1)).
Proof.
  assert (Hsize : size (classes (curriculum 15 ["Dijkstra"])) = 19) by compute_done.
  split_and!; [done|compute_done|compute_done|].
  intros fuel. rewrite validate_few_classes by (rewrite Hsize; lia).
  rewrite Hsize. split; compute_done.
Qed.

(** C6 (amended).  [validate] raises [AssertionError]:
    - for every store with exactly 19 classes, with the message
      [Need ≥20 classes, have 19];
    - a store with at least 20 classes, among them the root [Computer
      Science], whose longest [is_a] descent from the root has exactly [k]
      classes, [4 ≤ k], passes the depth check: [max_depth_from] returns [k]
      and [validate] goes on to the leaf classes;
    - a store that has passed the class count and the depth check, and in
      which the leaf class [c] has exactly 1 instance while every other leaf
      class has at least 2, fails with the message that names [c] and the
      count 1. *)
Theorem validate_floors :
  (∀ fuel O, size (classes O) = 19 →
     validate fuel O = Raise (AssertionError "Need ≥20 classes, have 19")) ∧
  (∀ O k, 20 ≤ size (classes O) → "Computer Science" ∈ classes O →
     depth_exactly O "Computer Science" k → 4 ≤ k →
     ∃ n, ∀ fuel, n ≤ fuel →
       max_depth_from fuel O "Computer Science" = Ret k ∧
       validate fuel O = check_leaves O (leaves O)) ∧
  (∀ fuel O d c, 20 ≤ size (classes O) →
     max_depth_from fuel O "Computer Science" = Ret d → 4 ≤ d →
     c ∈ leaves O → length (instances_of O c) = 1 →
     (∀ c', c' ∈ leaves O → c' ≠ c → 2 ≤ length (instances_of O c')) →
     validate fuel O = Raise (AssertionError (leaf_msg c 1))).
Proof.
  split_and!.
  - intros fuel O Hsize. rewrite validate_few_classes by lia. rewrite Hsize.
    by vm_compute.
  - intros O k Hsize Hroot Hdepth Hk.
    destruct (max_depth_from_exact O _ k Hroot Hdepth) as [n Hn].
    exists n. intros fuel Hfuel. split; [by apply Hn|].
    eapply validate_depth_ok; [done|by apply Hn|done].
  - intros fuel O d c Hsize Hd Hle Hc Hone Hothers.
    rewrite (validate_depth_ok fuel O d) by done.
    apply check_leaves_single; [done|done|lia|done].
Qed.

Lemma validate_floors_witness :
  (∀ fuel, validate fuel (curriculum 15 ["Dijkstra"])
           = Raise (AssertionError "Need ≥20 classes, have 19")) ∧
  ∃ n, ∀ fuel, n ≤ fuel →
    validate fuel (curriculum 16 ["Dijkstra"])
      = Raise (AssertionError (leaf_msg "Shortest Path" 1)).
Proof.
  destruct validate_floors as (H1 & H2 & H3). split.
  - intros fuel. apply H1. compute_done.
  - assert (Hsize : 20 ≤ size (classes (curriculum 16 ["Dijkstra"]))) by compute_done.
    destruct (H2 (curriculum 16 ["Dijkstra"]) 4) as [n Hn]; [done|compute_done| |lia|].
    { split.
      - apply (descent_child _ _ "Algorithms"); [compute_done|].
        apply (descent_child _ _ "Graph Algorithms"); [compute_done|].
        apply (descent_child _ _ "Shortest Path"); [compute_done|].
        apply descent_one.
      - apply height_le_sound. compute_done. }
    exists n. intros fuel Hfuel. destruct (Hn fuel Hfuel) as [Hd _].
    apply (H3 fuel _ 4); [done|done|lia|compute_done|compute_done|].
    intros c' Hc' Hne.
    assert (Hall : Forall (λ c', c' ≠ "Shortest Path" →
                     2 ≤ length (instances_of (curriculum 16 ["Dijkstra"]) c'))
                   (leaves (curriculum 16 ["Dijkstra"]))) by compute_done.
    rewrite Forall_forall in Hall. by apply Hall.
Defined.

(** ** C9: symmetry of [connected] *)

Lemma same_tables_resolve T T' x : same_tables T T' → resolve T x = resolve T' x.
Proof.
  intros (HC & HA & _ & _ & _ & HI). unfold resolve. rewrite HC, HA.
  assert (list_to_set (INSTANCE_OF T).*1 ∪ list_to_set (INSTANCE_OF T).*2
          = (list_to_set (INSTANCE_OF T').*1 ∪ list_to_set (INSTANCE_OF T').*2 : gset string))
    as ->; [|done].
  apply set_eq. intros y. rewrite !elem_of_union, !elem_of_list_to_set.
  by rewrite HI.
Qed.

Lemma same_tables_tokens T T' : same_tables T T' → tokens T = tokens T'.
Proof.
  intros (HC & HA & H1 & H2 & H3 & H4). unfold tokens, nodes. rewrite HC, HA.
  f_equal. apply set_eq. intros y. rewrite !elem_of_union, !elem_of_list_to_set.
  by rewrite H1, H2, H3, H4.
Qed.

Lemma same_tables_canonical T T' : same_tables T T' → canonical T' → canonical T.
Proof.
  intros Hsame Hcan x Hx. rewrite (same_tables_resolve T T') by done.
  apply Hcan. by rewrite <- (same_tables_tokens T T').
Qed.

Lemma canonical_db : canonical db.
Proof. compute_done. Qed.

Lemma connected_sym_canonical T a b :
  canonical T → returns (resolve T a) → returns (resolve T b) →
  connected T a b = connected T b a.
Proof.
  intros Hcan [a' Ha] [b' Hb].
  destruct (connected_spec T a b a' b' Hcan Ha Hb) as (r1 & -> & H1).
  destruct (connected_spec T b a b' a' Hcan Hb Ha) as (r2 & -> & H2).
  f_equal. apply resolve_tokens in Ha, Hb.
  destruct r1, r2; try done.
  - assert (false = true); [|done]. apply H2, linked_sym; [done|done|]. by apply H1.
  - assert (false = true); [|done]. apply H1, linked_sym; [done|done|]. by apply H2.
Qed.

(** C9.  On the tables of the module, in whatever order their sets are
    iterated, [connected(a, b)] and [connected(b, a)] give the same result
    for all identifiers [a] and [b] that [resolve] accepts. *)
Theorem connected_symmetric T a b :
  same_tables T db → returns (resolve T a) → returns (resolve T b) →
  connected T a b = connected T b a.
Proof.
  intros Hsame. apply connected_sym_canonical.
  eapply same_tables_canonical; [done|apply canonical_db].
Qed.

Lemma connected_symmetric_witness :
  connected db "собака" "шерсть" = connected db "шерсть" "собака".
Proof.
  apply (connected_symmetric db "собака" "шерсть").
  - by split_and!.
  - exists "dog". compute_done.
  - exists "fur". compute_done.
Defined.

(** * Further properties of the code *)

(** ** [lab_ontology.py]: reachability queries *)

(** X1.  [_reachable] (hence [is_a] and [depends_on]) returns on every
    store, cyclic or not, and answers [True] exactly when the target can be
    reached from the start along zero or more stored edges of the relation. *)
Theorem reachable_decides O start target r :
  ∃ b : bool, _reachable O start target r = Ret b ∧
    (b = true ↔ reaches (rels O r) start target).
Proof.
  destruct (reachable_total O start target r) as [b Hb]. exists b.
  split; [done|]. rewrite <- reachable_true_iff, Hb. naive_solver.
Qed.

(** X2.  Positive answers of [_reachable] compose: from [a] to [b] and from
    [b] to [c] gives from [a] to [c]. *)
Theorem reachable_transitive O r a b c :
  _reachable O a b r = Ret true → _reachable O b c r = Ret true →
  _reachable O a c r = Ret true.
Proof.
  rewrite !reachable_true_iff. intros Hab Hbc. by etrans.
Qed.

Lemma reachable_transitive_witness :
  _reachable ring_store "spoke" "rim" R_part_of = Ret true.
Proof.
  apply (reachable_transitive ring_store R_part_of "spoke" "hub" "rim");
    compute_done.
Defined.

(** X3.  [part_of] returns on every store, and answers [True] exactly when
    the whole is reachable from the part along [part_of] edges, either for
    the operands as given or for both operands lifted. *)
Theorem part_of_decides O part whole :
  ∃ b : bool, part_of O part whole = Ret b ∧
    (b = true ↔ reaches (rels O R_part_of) part whole
                ∨ reaches (rels O R_part_of) (lift O part) (lift O whole)).
Proof.
  rewrite part_of_unfold.
  destruct (reachable_total O part whole R_part_of) as [b1 H1].
  destruct (reachable_total O (lift O part) (lift O whole) R_part_of) as [b2 H2].
  rewrite H1. destruct b1.
  - exists true. split; [done|]. split; [|done]. intros _. left.
    by apply reachable_true_iff.
  - exists b2. split; [done|]. rewrite <- !reachable_true_iff, H1, H2. naive_solver.
Qed.

(** ** [lab_ontology.py]: construction *)

Lemma add_edge_idemp g x y : add_edge (add_edge g x y) x y = add_edge g x y.
Proof.
  unfold add_edge at 1. rewrite get_add_edge, decide_True by done.
  unfold add_edge. rewrite insert_insert_eq. f_equal. set_solver.
Qed.

(** X4.  Every construction operation is idempotent: repeating a call
    leaves the store as the first call left it. *)
Theorem construction_idempotent O o : apply_op (apply_op O o) o = apply_op O o.
Proof.
  destruct o; simpl; unfold add_is_a, add_part_of, add_depends_on, add_instance,
    add_class; simpl; rewrite ?add_edge_idemp, ?insert_insert_eq;
    f_equal; set_solver.
Qed.

Lemma edge_of_apply_op O o r x y :
  edge_of (rels O r) x y → edge_of (rels (apply_op O o) r) x y.
Proof.
  destruct o, r; simpl; rewrite ?edge_of_add_edge; auto.
Qed.

Lemma reaches_apply_op O o r x y :
  reaches (rels O r) x y → reaches (rels (apply_op O o) r) x y.
Proof.
  induction 1 as [|x y z Hxy _ IH]; [apply rtc_refl|].
  eapply rtc_l; [|done]. by apply edge_of_apply_op.
Qed.

(** X5.  Construction only adds: whatever operations follow, a registered
    class stays a class, an instance stays an instance, and a [True] answer
    of [_reachable] stays [True]. *)
Theorem construction_monotone O ops :
  classes O ⊆ classes (foldl apply_op O ops) ∧
  instances O ⊆ instances (foldl apply_op O ops) ∧
  ∀ r x y, _reachable O x y r = Ret true →
           _reachable (foldl apply_op O ops) x y r = Ret true.
Proof.
  revert O. induction ops as [|o ops IH]; intros O; simpl; [done|].
  destruct (IH (apply_op O o)) as (Hc & Hi & Hr). split_and!.
  - rewrite classes_apply_op in Hc. set_solver.
  - rewrite instances_apply_op in Hi. set_solver.
  - intros r x y Hxy. apply Hr. apply reachable_true_iff in Hxy.
    by apply reachable_true_iff, reaches_apply_op.
Qed.

Lemma construction_monotone_witness :
  _reachable (foldl apply_op ring_store [AddInstance "rim" "hub"; AddPartOf "rim" "axle"])
    "hub" "spoke" R_part_of = Ret true.
Proof.
  apply (construction_monotone ring_store). compute_done.
Defined.

(** X6.  In a store built by the construction operations, both endpoints of
    every stored edge are registered classes, the registered instances are
    exactly the identifiers that have an assigned class, and every assigned
    class is a registered class. *)
Theorem construction_well_formed ops :
  (∀ r x y, edge_of (rels (build ops) r) x y →
            x ∈ classes (build ops) ∧ y ∈ classes (build ops)) ∧
  (∀ i, i ∈ instances (build ops) ↔ is_Some (class_of (build ops) i)) ∧
  (∀ i c, class_of (build ops) i = Some c → c ∈ classes (build ops)).
Proof.
  destruct (well_formed_build ops) as [He Hi Ha]. split_and!; [done| |done].
  intros i. by rewrite <- Hi, elem_of_dom.
Qed.

(** X7.  An edge that was just added is found by the query of its relation. *)
Theorem added_edge_found O x y :
  is_a (add_is_a O x y) x y = Ret true ∧
  part_of (add_part_of O x y) x y = Ret true ∧
  depends_on (add_depends_on O x y) x y = Ret true.
Proof.
  assert (Hstep : ∀ g, reaches (add_edge g x y) x y).
  { intros g. eapply rtc_l; [|apply rtc_refl]. apply edge_of_add_edge. by left. }
  split_and!.
  - apply reachable_true_iff, Hstep.
  - rewrite part_of_unfold.
    assert (_reachable (add_part_of O x y) x y R_part_of = Ret true) as ->; [|done].
    apply reachable_true_iff, Hstep.
  - apply reachable_true_iff, Hstep.
Qed.

(** ** [lab_ontology.py]: instances and leaf classes *)

Lemma length_instances_of O c :
  length (instances_of O c)
  = size (filter (λ kv : string * string, kv.2 = c) (instance_of O)).
Proof. unfold instances_of. by rewrite length_fmap, length_map_to_list. Qed.

(** X8.  [instances_of] and [class_of] agree: [instances_of(c)] lists
    exactly the instances whose [class_of] is [c], each of them once. *)
Theorem instances_of_class_of O c :
  (∀ i, i ∈ instances_of O c ↔ class_of O i = Some c) ∧ NoDup (instances_of O c).
Proof.
  unfold instances_of, class_of. split.
  - intros i. rewrite list_elem_of_fmap. split.
    + intros ([i' c'] & -> & [Hic Hc]%elem_of_map_to_list%map_lookup_filter_Some).
      simpl in *. by subst.
    + intros Hic. exists (i, c). split; [done|].
      by apply elem_of_map_to_list, map_lookup_filter_Some.
  - apply NoDup_fst_map_to_list.
Qed.

(** X9.  Assigning an instance of [c] to another class [c'] takes it away
    from [c]: [instances_of(c)] loses one element and [instances_of(c')]
    gains one. *)
Theorem reassign_moves_instance O i c c' :
  class_of O i = Some c → c' ≠ c →
  length (instances_of (add_instance O i c') c) = length (instances_of O c) - 1 ∧
  length (instances_of (add_instance O i c') c') = length (instances_of O c') + 1.
Proof.
  unfold class_of. intros Hic Hne. rewrite !length_instances_of. simpl. split.
  - rewrite map_filter_insert_False by (simpl; congruence).
    rewrite map_filter_delete, map_size_delete_Some; [lia|].
    exists c. by apply map_lookup_filter_Some.
  - rewrite map_filter_insert_True by done.
    rewrite map_size_insert_None; [lia|].
    apply map_lookup_filter_None. right. intros c'' Hc''. simpl. congruence.
Qed.

Lemma reassign_moves_instance_witness :
  length (instances_of (add_instance ring_store "hub-7" "rim") "hub") = 0 ∧
  length (instances_of (add_instance ring_store "hub-7" "rim") "rim") = 1.
Proof.
  destruct (reassign_moves_instance ring_store "hub-7" "hub" "rim") as [H1 H2];
    [compute_done|done|].
  split; [rewrite H1|rewrite H2]; compute_done.
Defined.

(** X10.  A class is a leaf exactly when no stored [is_a] edge points to it;
    the parent of an [is_a] edge that was just added is not a leaf. *)
Theorem leaf_class_iff O c :
  (is_leaf_class O c = true ↔ ∀ x, ¬ edge_of (rel_is_a O) x c) ∧
  ∀ child, is_leaf_class (add_is_a O child c) c = false.
Proof.
  assert (Hiff : ∀ O', is_leaf_class O' c = true ↔ ∀ x, ¬ edge_of (rel_is_a O') x c).
  { intros O'. unfold is_leaf_class. rewrite bool_decide_eq_true, size_empty_iff.
    split.
    - intros Hempty x Hx%elem_of_subclasses. set_solver.
    - intros Hno. apply set_equiv. intros x. rewrite elem_of_subclasses. set_solver. }
  split; [apply Hiff|]. intros child.
  apply not_true_is_false. rewrite Hiff. intros Hno. apply (Hno child).
  simpl. apply edge_of_add_edge. by left.
Qed.

(** ** [lab_ontology.py]: [any_path] and the single-relation queries *)

Lemma reaches_reaches_any O r x y : reaches (rels O r) x y → reaches_any O x y.
Proof.
  induction 1 as [|x y z Hxy _ IH]; [apply rtc_refl|].
  eapply rtc_l; [by exists r|done].
Qed.

(** X11.  Whenever [is_a], [depends_on] or the plain [part_of] search
    answers [True] for a pair, [any_path] returns a path for it. *)
Theorem any_path_finds O a b r :
  _reachable O a b r = Ret true → ∃ p, any_path O a b = Ret (Some p).
Proof.
  intros Hr%reachable_true_iff%reaches_reaches_any.
  destruct (any_path_spec O a b) as ([p|] & Hres & Hspec); [by exists p|done].
Qed.

Lemma any_path_finds_witness : ∃ p, any_path ring_store "spoke" "rim" = Ret (Some p).
Proof. apply (any_path_finds ring_store "spoke" "rim" R_part_of). compute_done. Defined.

(** ** [lab_ontology.py]: [max_depth_from] *)

Lemma elem_of_push_children x d chs d' stack :
  (x, d) ∈ push_children chs d' stack ↔ (x ∈ chs ∧ d = d' + 1) ∨ (x, d) ∈ stack.
Proof.
  rewrite push_children_app, elem_of_app, list_elem_of_fmap.
  setoid_rewrite elem_of_reverse. naive_solver.
Qed.

Lemma max_depth_loop_result O fuel best stack r :
  max_depth_loop (build_down (rel_is_a O)) fuel best stack = Ret r →
  best ≤ r ∧
  (∀ x d m, (x, d) ∈ stack → descent (rel_is_a O) x m → d + m - 1 ≤ r) ∧
  (r = best ∨ ∃ x d m, (x, d) ∈ stack ∧ descent (rel_is_a O) x m ∧ r = d + m - 1).
Proof.
  revert best stack. induction fuel as [|fuel IH]; intros best stack; [done|].
  destruct stack as [|[x d] stack]; simpl.
  { intros [= <-]. split_and!; [done|by intros ??? ?%elem_of_nil|by left]. }
  intros (Hb & Hall & Hex)%IH. split_and!; [lia| |].
  - intros y e m [[= -> ->]|Hin]%elem_of_cons Hm.
    + destruct Hm as [y|y c m Hc Hm]; [lia|].
      assert (d + 1 + m - 1 ≤ r); [|lia]. eapply Hall; [|done].
      apply elem_of_push_children. left. split; [|done].
      by apply elem_of_succs, edge_of_build_down.
    + eapply Hall; [|done]. apply elem_of_push_children. by right.
  - destruct Hex as [->|(y & e & m & Hin & Hm & ->)].
    + destruct (decide (d ≤ best)); [left; lia|]. right.
      exists x, d, 1. split_and!; [left|apply descent_one|lia].
    + right. apply elem_of_push_children in Hin as [[Hy ->]|Hin].
      * exists x, d, (S m). split_and!; [left| |lia].
        eapply descent_child; [|done]. by apply edge_of_build_down, elem_of_succs.
      * exists y, e, m. split_and!; [by right|done|done].
Qed.

Lemma max_depth_from_sound fuel O root d :
  max_depth_from fuel O root = Ret d →
  if decide (root ∈ classes O) then depth_exactly O root d else d = 0.
Proof.
  unfold max_depth_from. case_decide; [|by intros [= <-]].
  intros (_ & Hall & Hex)%max_depth_loop_result.
  assert (1 ≤ d) by (specialize (Hall root 1 1 ltac:(left) (descent_one _ _)); lia).
  destruct Hex as [->|(x & e & m & [= -> ->]%list_elem_of_singleton & Hm & ->)]; [lia|].
  pose proof (descent_pos _ _ _ Hm). replace (1 + m - 1) with m by lia.
  split; [done|]. intros m' Hm'.
  specialize (Hall root 1 m' ltac:(left) Hm'). lia.
Qed.

(** X12.  Whenever [max_depth_from] returns for a registered root, its
    result is the number of classes on the longest [is_a] descent from the
    root, the root counted; for a root that is not a registered class it
    returns 0. *)
Theorem max_depth_from_result fuel O root d :
  max_depth_from fuel O root = Ret d →
  if decide (root ∈ classes O) then depth_exactly O root d else d = 0.
Proof. apply max_depth_from_sound. Qed.

Lemma max_depth_from_result_witness :
  depth_exactly (curriculum 2 []) "Computer Science" 4.
Proof.
  apply (max_depth_from_result 20 (curriculum 2 []) "Computer Science" 4).
  compute_done.
Defined.

Lemma max_depth_loop_endless O (C : gset string) fuel best stack :
  endless (rel_is_a O) C →
  (∃ x d, (x, d) ∈ stack ∧ x ∈ C) →
  max_depth_loop (build_down (rel_is_a O)) fuel best stack = Timeout.
Proof.
  intros HC. revert best stack. induction fuel as [|fuel IH]; intros best stack; [done|].
  intros (x & d & Hin & Hx). destruct stack as [|[y e] stack]; [by apply elem_of_nil in Hin|].
  simpl. apply IH. apply elem_of_cons in Hin as [[= <- <-]|Hin].
  - destruct (HC x Hx) as (c & Hc & Hcx). exists c, (d + 1). split; [|done].
    apply elem_of_push_children. left. split; [|done].
    by apply elem_of_succs, edge_of_build_down.
  - exists x, d. split; [|done]. apply elem_of_push_children. by right.
Qed.

(** X13.  [max_depth_from] keeps no visited set: when the root is a
    registered class that lies on a cycle of [is_a] edges (or in any set of
    classes each of which has a direct subclass in the set), no number of
    iterations lets it return, and [validate] hangs with it once the class
    count is at least 20. *)
Theorem max_depth_from_endless O root (C : gset string) :
  root ∈ classes O → root ∈ C → endless (rel_is_a O) C →
  ∀ fuel, max_depth_from fuel O root = Timeout ∧
    (root = "Computer Science" → 20 ≤ size (classes O) → validate fuel O = Timeout).
Proof.
  intros Hroot HC Hend fuel.
  assert (Hdepth : max_depth_from fuel O root = Timeout).
  { unfold max_depth_from. rewrite decide_True by done.
    eapply max_depth_loop_endless; [done|]. exists root, 1. split; [left|done]. }
  split; [done|]. intros -> Hsize. unfold validate.
  rewrite decide_True by done. by rewrite Hdepth.
Qed.

Lemma max_depth_from_endless_witness :
  max_depth_from 1000 (build [AddIsA "egg" "hen"; AddIsA "hen" "egg"]) "hen" = Timeout.
Proof.
  apply (max_depth_from_endless (build [AddIsA "egg" "hen"; AddIsA "hen" "egg"])
           "hen" {["egg"; "hen"]}).
  - compute_done.
  - set_solver.
  - intros x [->%elem_of_singleton| ->%elem_of_singleton]%elem_of_union.
    + exists "hen". split; [set_solver|compute_done].
    + exists "egg". split; [set_solver|compute_done].
Defined.

(** ** [lab_ontology.py]: [validate] and [load_ontology] *)

Lemma check_leaves_cases O l :
  (check_leaves O l = Ret true ∧ ∀ c, c ∈ l → 2 ≤ length (instances_of O c)) ∨
  ∃ c, c ∈ l ∧ length (instances_of O c) < 2 ∧
       check_leaves O l = Raise (AssertionError (leaf_msg c (length (instances_of O c)))).
Proof.
  induction l as [|c l IH]; simpl.
  { left. split; [done|]. by intros ? ?%elem_of_nil. }
  case_decide as Hc.
  - right. exists c. split_and!; [left|done|done].
  - destruct IH as [[-> Hall]|(c' & Hin & Hlt & ->)].
    + left. split; [done|]. intros c' [->|?]%elem_of_cons; [lia|auto].
    + right. exists c'. split_and!; [by right|done|done].
Qed.

Lemma validate_true_iff fuel O :
  (validate fuel O = Ret true ↔
     20 ≤ size (classes O) ∧
     (∃ d, max_depth_from fuel O "Computer Science" = Ret d ∧ 4 ≤ d) ∧
     leaves_populated O) ∧
  validate fuel O ≠ Ret false.
Proof.
  unfold validate, leaves_populated. fold (leaves O).
  destruct (decide (20 ≤ size (classes O))) as [Hsize|Hsize]; [|naive_solver].
  destruct (max_depth_from fuel O "Computer Science") as [d| |]; simpl;
    [|naive_solver..].
  destruct (decide (4 ≤ d)) as [Hd|Hd]; [|naive_solver].
  destruct (check_leaves_cases O (leaves O)) as [[-> Hall]|(c & Hin & Hlt & ->)].
  - split; [|done]. split; [|done]. intros _. split_and!; [done|by exists d|done].
  - split; [|done]. split; [done|]. intros (_ & _ & Hall). specialize (Hall c Hin). lia.
Qed.

(** X14.  [validate] returns [True] exactly when the store has at least 20
    classes, [max_depth_from("Computer Science")] returns at least 4 and
    every leaf class has at least two instances; it never returns [False]:
    any other outcome is an [AssertionError], or no outcome at all. *)
Theorem validate_passes_iff fuel O :
  (validate fuel O = Ret true ↔
     20 ≤ size (classes O) ∧
     (∃ d, max_depth_from fuel O "Computer Science" = Ret d ∧ 4 ≤ d) ∧
     leaves_populated O) ∧
  validate fuel O ≠ Ret false.
Proof. apply validate_true_iff. Qed.

Lemma max_depth_loop_more_fuel down fuel fuel' best stack r :
  max_depth_loop down fuel best stack = Ret r → fuel ≤ fuel' →
  max_depth_loop down fuel' best stack = Ret r.
Proof.
  revert fuel' best stack. induction fuel as [|fuel IH]; intros fuel' best stack; [done|].
  intros Hr Hle. destruct fuel' as [|fuel']; [lia|].
  destruct stack as [|[x d] stack]; simpl in *; [done|]. apply IH; [done|lia].
Qed.

Lemma validate_more_fuel fuel fuel' O r :
  validate fuel O = Ret r → fuel ≤ fuel' → validate fuel' O = Ret r.
Proof.
  unfold validate. case_decide; [|done].
  destruct (max_depth_from fuel O "Computer Science") as [d| |] eqn:Hd; [|done..].
  intros Hr Hle.
  assert (max_depth_from fuel' O "Computer Science" = Ret d) as ->; [|done].
  unfold max_depth_from in *. case_decide; [|done].
  by eapply max_depth_loop_more_fuel.
Qed.

(** X15.  [load_ontology] returns its store: the seed data passes
    [validate], with 56 classes, a longest descent of exactly 4 classes from
    the root, at least two instances for every leaf class, and no identifier
    registered both as a class and as an instance. *)
Theorem load_ontology_returns :
  (∀ fuel, 57 ≤ fuel → load_ontology fuel = Ret (build seed_ops)) ∧
  size (classes (build seed_ops)) = 56 ∧
  depth_exactly (build seed_ops) "Computer Science" 4 ∧
  leaves_populated (build seed_ops) ∧
  instances (build seed_ops) ## classes (build seed_ops).
Proof.
  assert (Hv : validate 57 (build seed_ops) = Ret true) by compute_done.
  split_and!.
  - intros fuel Hfuel. unfold load_ontology.
    by rewrite (validate_more_fuel 57 fuel _ true).
  - compute_done.
  - apply (max_depth_from_sound 57 (build seed_ops) "Computer Science" 4).
    compute_done.
  - by apply (validate_true_iff 57 (build seed_ops)).
  - compute_done.
Qed.

(** ** [src/ontology.py]: [resolve] and [build_index] *)

(** X16.  On the tables of the module, in whatever order their sets are
    iterated, [resolve] is idempotent: whatever it returns for a name is a
    token of the tables (an alias target, a class, or an identifier of some
    pair) and resolves to itself, so that resolving an operand again, as
    [neighbors] and [is_a_transitive] do, changes nothing. *)
Theorem resolve_idempotent T name c :
  same_tables T db → resolve T name = Ret c →
  resolve T c = Ret c ∧ c ∈ tokens T.
Proof.
  intros Hsame Hc. pose proof (resolve_tokens _ _ _ Hc) as Htok.
  split; [|done]. by apply (same_tables_canonical T db Hsame canonical_db).
Qed.

Lemma resolve_idempotent_witness : resolve db "fur" = Ret "fur".
Proof.
  apply (resolve_idempotent db (no_break_space +:+ "шерсть ") "fur");
    [by split_and!|compute_done].
Defined.

(** X17.  Looking up a source in the index built from a list of pairs gives
    exactly the targets paired with it: nothing for a source that occurs in
    no pair. *)
Theorem build_index_lookup edges x :
  (∀ y, y ∈ get (build_index edges) x ↔ (x, y) ∈ edges) ∧
  (x ∉ edges.*1 → get (build_index edges) x = ∅).
Proof.
  split; [intros y; apply edge_of_build_index|].
  intros Hx. apply set_eq. intros y.
  rewrite (edge_of_build_index edges x y : y ∈ get _ x ↔ _). split; [|set_solver].
  intros Hin. destruct Hx. apply list_elem_of_fmap. by exists (x, y).
Qed.

Lemma build_index_lookup_witness : get (build_index [("a", "b")]) "b" = ∅.
Proof. apply build_index_lookup. compute_done. Defined.

(** ** [src/ontology.py]: [is_a_transitive] *)

Section bfs_is_a.

Context (T : tables) (ancestor : string).

Lemma scan_parents_found ps queue :
  scan_parents ancestor ps queue = None ↔ ancestor ∈ ps.
Proof.
  revert queue. induction ps as [|p ps IH]; intros queue; simpl.
  - split; [done|by intros ?%elem_of_nil].
  - rewrite elem_of_cons. case_decide; [naive_solver|]. rewrite IH. naive_solver.
Qed.

Lemma scan_parents_queue ps queue queue' :
  scan_parents ancestor ps queue = Some queue' → queue' = queue ++ ps.
Proof.
  revert queue. induction ps as [|p ps IH]; intros queue; simpl.
  - intros [= <-]. by rewrite app_nil_r.
  - case_decide; [done|]. intros ->%IH. by rewrite <- app_assoc.
Qed.

Lemma is_a_loop_true fuel visited queue :
  is_a_loop T ancestor fuel visited queue = Ret true →
  ∃ x y, x ∈ queue ∧ rtc (edge_of (IS_A_INDEX T)) x y
         ∧ edge_of (IS_A_INDEX T) y ancestor.
Proof.
  revert visited queue. induction fuel as [|fuel IH]; intros visited queue; [done|].
  destruct queue as [|x queue]; simpl; [done|].
  case_decide.
  { intros (x' & y & ? & ?)%IH. exists x', y. split; [by right|done]. }
  destruct (scan_parents _ _ _) as [queue'|] eqn:Hscan.
  - apply scan_parents_queue in Hscan as ->.
    intros (x' & y & [?|Hx']%elem_of_app & Hr & Hy)%IH.
    + exists x', y. split; [by right|done].
    + exists x, y. split; [left|]. split; [|done].
      eapply rtc_l; [|done]. by apply elem_of_succs.
  - apply scan_parents_found, elem_of_succs in Hscan. intros _.
    exists x, x. split; [left|]. split; [apply rtc_refl|done].
Qed.

Lemma is_a_loop_false fuel visited queue :
  is_a_loop T ancestor fuel visited queue = Ret false →
  (∀ x y, x ∈ visited → edge_of (IS_A_INDEX T) x y →
          y ≠ ancestor ∧ (y ∈ visited ∨ y ∈ queue)) →
  ∃ X : gset string, (∀ x, x ∈ queue → x ∈ X) ∧
    ∀ x y, x ∈ X → edge_of (IS_A_INDEX T) x y → y ≠ ancestor ∧ y ∈ X.
Proof.
  revert visited queue. induction fuel as [|fuel IH]; intros visited queue; [done|].
  destruct queue as [|x queue]; simpl.
  { intros _ Hinv. exists visited. split; [by intros ? ?%elem_of_nil|].
    intros x y Hx Hxy. destruct (Hinv x y Hx Hxy) as [? [?|?%elem_of_nil]]; done. }
  case_decide as Hx.
  - intros Hloop Hinv. destruct (IH _ _ Hloop) as (X & HX1 & HX2).
    + intros u v Hu Huv. destruct (Hinv u v Hu Huv) as [? [?|[->|?]%elem_of_cons]]; auto.
    + exists (X ∪ visited). split; [intros u [->|?]%elem_of_cons; set_solver|].
      intros u v [Hu|Hu]%elem_of_union Huv.
      * destruct (HX2 u v Hu Huv). set_solver.
      * destruct (Hinv u v Hu Huv) as [? [?|[->|?]%elem_of_cons]]; set_solver.
  - destruct (scan_parents _ _ _) as [queue'|] eqn:Hscan; [|done].
    assert (Hb : ancestor ∉ succs (IS_A_INDEX T) x).
    { intros Hb%(scan_parents_found _ queue). congruence. }
    apply scan_parents_queue in Hscan as ->.
    intros Hloop Hinv. destruct (IH _ _ Hloop) as (X & HX1 & HX2).
    + intros u v [->%elem_of_singleton|Hu]%elem_of_union Huv.
      * split; [intros ->; by apply Hb, elem_of_succs|].
        right. apply elem_of_app. right. by apply elem_of_succs.
      * destruct (Hinv u v Hu Huv) as [? [?|[->|?]%elem_of_cons]];
          (split; [done|]); set_solver.
    + exists (X ∪ ({[x]} ∪ visited)). split; [intros u [->|?]%elem_of_cons; set_solver|].
      intros u v [Hu|[->%elem_of_singleton|Hu]%elem_of_union]%elem_of_union Huv.
      * destruct (HX2 u v Hu Huv). set_solver.
      * split; [intros ->; by apply Hb, elem_of_succs|].
        apply elem_of_union_l, HX1, elem_of_app. right. by apply elem_of_succs.
      * destruct (Hinv u v Hu Huv) as [? [?|[->|?]%elem_of_cons]]; [set_solver..|].
        split; [done|]. apply elem_of_union_l, HX1, elem_of_app. by left.
Qed.

End bfs_is_a.

Lemma is_a_loop_no_raise T ancestor fuel visited queue e :
  is_a_loop T ancestor fuel visited queue ≠ Raise e.
Proof.
  revert visited queue. induction fuel as [|fuel IH]; intros visited queue; [done|].
  destruct queue as [|x queue]; simpl; [done|]. case_decide; [apply IH|].
  destruct (scan_parents _ _ _); [apply IH|done].
Qed.

(** [is_a_transitive] on resolved operands. *)
Lemma is_a_transitive_spec T child ancestor c a :
  resolve T child = Ret c → resolve T ancestor = Ret a →
  ∃ b : bool, is_a_transitive T child ancestor = Ret b ∧
    (b = true ↔ rtc (edge_of (IS_A_INDEX T)) c a).
Proof.
  intros Hc Ha. pose proof (is_a_transitive_terminates T child ancestor) as Hterm.
  unfold is_a_transitive in *. rewrite Hc, Ha in *. simpl in *.
  destruct (decide (c = a)) as [->|Hne].
  { exists true. split; [done|]. split; [intros _; apply rtc_refl|done]. }
  destruct (is_a_loop T a _ ∅ [c]) as [b|e|] eqn:Hloop;
    [|by apply is_a_loop_no_raise in Hloop|done].
  exists b. split; [done|]. destruct b.
  - split; [intros _|done].
    apply is_a_loop_true in Hloop as (x & y & ->%list_elem_of_singleton & Hr & Hy).
    by eapply rtc_r.
  - split; [done|]. intros Hr. exfalso.
    apply is_a_loop_false in Hloop as (X & HX1 & HX2); [|set_solver].
    assert (Hin : ∀ z, rtc (edge_of (IS_A_INDEX T)) c z → z ∈ X ∧ (z = c ∨ z ≠ a)).
    { apply (rtc_ind_r (λ z, z ∈ X ∧ (z = c ∨ z ≠ a))).
      - split; [apply HX1; left|by left].
      - intros y z _ Hyz [IH1 _]. destruct (HX2 y z IH1 Hyz). auto. }
    destruct (Hin a Hr) as [_ [?|?]]; congruence.
Qed.

Lemma rtc_is_a_index T x y :
  rtc (edge_of (IS_A_INDEX T)) x y ↔ rtc (λ u v, (u, v) ∈ IS_A T) x y.
Proof.
  split; apply rtc_subrel; intros u v; unfold IS_A_INDEX;
    by rewrite edge_of_build_index.
Qed.

(** X18.  For operands that [resolve] accepts, [is_a_transitive] returns on
    every table, with [IS_A] cyclic or not, and answers [True] exactly when
    a chain of zero or more [IS_A] pairs leads from the resolved child to the
    resolved ancestor. *)
Theorem is_a_transitive_decides T child ancestor c a :
  resolve T child = Ret c → resolve T ancestor = Ret a →
  ∃ b : bool, is_a_transitive T child ancestor = Ret b ∧
    (b = true ↔ rtc (λ u v, (u, v) ∈ IS_A T) c a).
Proof.
  intros Hc Ha. destruct (is_a_transitive_spec T child ancestor c a Hc Ha) as (b & ? & ?).
  exists b. by rewrite <- rtc_is_a_index.
Qed.

Lemma is_a_transitive_decides_witness :
  is_a_transitive db "пес" "vertebrate" = Ret true ∧
  rtc (λ u v, (u, v) ∈ IS_A db) "dog" "vertebrate".
Proof.
  destruct (is_a_transitive_decides db "пес" "vertebrate" "dog" "vertebrate")
    as (b & Hb & Hiff); [compute_done..|].
  assert (Hv : is_a_transitive db "пес" "vertebrate" = Ret true) by compute_done.
  split; [done|]. apply Hiff. congruence.
Defined.

(** X19.  [True] answers of [is_a_transitive] compose. *)
Theorem is_a_transitive_trans T x y z :
  is_a_transitive T x y = Ret true → is_a_transitive T y z = Ret true →
  is_a_transitive T x z = Ret true.
Proof.
  intros Hxy Hyz.
  destruct (resolve T x) as [x'| |] eqn:Hx;
    [|by unfold is_a_transitive in Hxy; rewrite Hx in Hxy..].
  destruct (resolve T y) as [y'| |] eqn:Hy;
    [|by unfold is_a_transitive in Hyz; rewrite Hy in Hyz..].
  destruct (resolve T z) as [z'| |] eqn:Hz;
    [|by unfold is_a_transitive in Hyz; rewrite Hy, Hz in Hyz..].
  destruct (is_a_transitive_spec T x y x' y' Hx Hy) as (b1 & E1 & I1).
  destruct (is_a_transitive_spec T y z y' z' Hy Hz) as (b2 & E2 & I2).
  destruct (is_a_transitive_spec T x z x' z' Hx Hz) as (b3 & E3 & I3).
  rewrite E3. f_equal. apply I3. etrans; [apply I1|apply I2]; congruence.
Qed.

Lemma is_a_transitive_trans_witness : is_a_transitive db "dog" "animal" = Ret true.
Proof. apply (is_a_transitive_trans db "dog" "mammal" "animal"); compute_done. Defined.

(** ** [src/ontology.py]: [has_part] and [has_part_transitive] *)

Lemma elem_of_direct_parts T node p : p ∈ direct_parts T node ↔ (p, node) ∈ PART_OF T.
Proof. unfold direct_parts. by rewrite elem_of_list_to_set, elem_of_sources. Qed.

Lemma elem_of_direct_subclasses T node c :
  c ∈ direct_subclasses T node ↔ (c, node) ∈ IS_A T.
Proof. unfold direct_subclasses. by rewrite elem_of_list_to_set, elem_of_sources. Qed.

(** X20.  A direct part is a transitive part: when [has_part] answers
    [True], so does [has_part_transitive]. *)
Theorem has_part_implies_transitive T whole part :
  has_part T whole part = Ret true → has_part_transitive T whole part = Ret true.
Proof.
  unfold has_part, has_part_transitive.
  destruct (resolve T whole) as [w| |]; [|done..].
  destruct (resolve T part) as [p| |]; [|done..]. simpl.
  intros [= Hin%bool_decide_eq_true].
  replace (total_degree (parents T) (subclass_list T) + 2)
    with (S (total_degree (parents T) (subclass_list T) + 1)) by lia.
  simpl. rewrite decide_False by set_solver.
  rewrite decide_True; [done|]. by apply elem_of_direct_parts.
Qed.

Lemma has_part_implies_transitive_witness :
  has_part_transitive db "bird" "wing" = Ret true.
Proof. apply has_part_implies_transitive. compute_done. Defined.

Lemma subsumed_true T part ps :
  subsumed T part ps = Ret true → ∃ q, q ∈ ps ∧ is_a_transitive T part q = Ret true.
Proof.
  induction ps as [|q ps IH]; simpl; [done|].
  destruct (is_a_transitive T part q) as [[]| |] eqn:Hq; simpl; [|..|done|done].
  - intros _. exists q. split; [left|done].
  - intros (q' & ? & ?)%IH. exists q'. split; [by right|done].
Qed.

Lemma nested_parts_ret T ps queue queue' :
  nested_parts T ps queue = Ret queue' → ps = [] ∧ queue' = queue.
Proof. destruct ps; [by intros [= <-]|done]. Qed.

(** Any outcome other than [False] points at a class below a queued one
    that has a direct part. *)
Lemma has_part_loop_outcome T part fuel visited queue :
  has_part_loop T part fuel visited queue = Ret false ∨
  has_part_loop T part fuel visited queue = Timeout ∨
  ∃ x n q, x ∈ queue ∧ descendant T x n ∧ (q, n) ∈ PART_OF T ∧
    (has_part_loop T part fuel visited queue = Ret true →
     ∃ n q, descendant T x n ∧ (q, n) ∈ PART_OF T ∧
            (q = part ∨ is_a_transitive T part q = Ret true)).
Proof.
  revert visited queue. induction fuel as [|fuel IH]; intros visited queue; [by right; left|].
  destruct queue as [|x queue]; simpl; [by left|].
  assert (Hlift : ∀ visited' queue',
    (∀ y, y ∈ queue' → y ∈ queue ∨ (y, x) ∈ IS_A T) →
    has_part_loop T part fuel visited' queue' = Ret false ∨
    has_part_loop T part fuel visited' queue' = Timeout ∨
    ∃ x0 n q, x0 ∈ x :: queue ∧ descendant T x0 n ∧ (q, n) ∈ PART_OF T ∧
      (has_part_loop T part fuel visited' queue' = Ret true →
       ∃ n q, descendant T x0 n ∧ (q, n) ∈ PART_OF T ∧
              (q = part ∨ is_a_transitive T part q = Ret true))).
  { intros visited' queue' Hq.
    destruct (IH visited' queue') as [?|[?|(y & n & q & Hy & Hn & Hq' & Htrue)]]; [auto..|].
    right; right. destruct (Hq y Hy) as [?|Hyx].
    - exists y, n, q. split_and!; [by right|done..].
    - exists x, n, q. split_and!; [left|by eapply rtc_l|done|].
      intros (n' & q' & ? & ?)%Htrue. exists n', q'. split; [by eapply rtc_l|done]. }
  case_decide as Hx; [apply Hlift; by left|].
  destruct (decide (part ∈ direct_parts T x)) as [Hp|Hp].
  { right; right. apply elem_of_direct_parts in Hp.
    exists x, x, part. split_and!; [left|apply rtc_refl|done|].
    intros _. exists x, part. split_and!; [apply rtc_refl|done|by left]. }
  destruct (elements (direct_parts T x)) as [|q0 ps] eqn:Hel.
  - simpl. apply Hlift.
    intros y [?|Hy%elem_of_elements%elem_of_direct_subclasses]%elem_of_app; auto.
  - assert (Hq0 : (q0, x) ∈ PART_OF T).
    { apply elem_of_direct_parts, elem_of_elements. rewrite Hel. left. }
    right; right. exists x, x, q0. split_and!; [left|apply rtc_refl|done|].
    destruct (subsumed T part (q0 :: ps)) as [[]| |] eqn:Hsub; simpl; [|done..].
    intros _. apply subsumed_true in Hsub as (q & Hq & Hisa).
    exists x, q. split_and!; [apply rtc_refl| |by right].
    apply elem_of_direct_parts, elem_of_elements. by rewrite Hel.
Qed.

Lemma has_part_loop_false T part fuel visited queue :
  has_part_loop T part fuel visited queue = Ret false →
  (∀ x, x ∈ visited → direct_parts T x = ∅ ∧
        ∀ c, (c, x) ∈ IS_A T → c ∈ visited ∨ c ∈ queue) →
  ∃ X : gset string, (∀ x, x ∈ queue → x ∈ X) ∧
    ∀ x, x ∈ X → direct_parts T x = ∅ ∧ ∀ c, (c, x) ∈ IS_A T → c ∈ X.
Proof.
  revert visited queue. induction fuel as [|fuel IH]; intros visited queue; [done|].
  destruct queue as [|x queue]; simpl.
  { intros _ Hinv. exists visited. split; [by intros ? ?%elem_of_nil|].
    intros x Hx. destruct (Hinv x Hx) as [? Hc]. split; [done|].
    intros c Hcx. destruct (Hc c Hcx) as [?|?%elem_of_nil]; done. }
  case_decide as Hx.
  - intros Hloop Hinv. destruct (IH _ _ Hloop) as (X & HX1 & HX2).
    + intros u Hu. destruct (Hinv u Hu) as [? Hc]. split; [done|].
      intros c Hcu. destruct (Hc c Hcu) as [?|[->|?]%elem_of_cons]; auto.
    + exists (X ∪ visited). split; [intros u [->|?]%elem_of_cons; set_solver|].
      intros u [Hu|Hu]%elem_of_union.
      * destruct (HX2 u Hu) as [? Hc]. split; [done|]. intros c Hcu.
        apply elem_of_union_l. by apply Hc.
      * destruct (Hinv u Hu) as [? Hc]. split; [done|]. intros c Hcu.
        destruct (Hc c Hcu) as [?|[->|?]%elem_of_cons]; set_solver.
  - case_decide; [done|].
    destruct (subsumed T part _) as [[]| |]; simpl; [done| |done|done].
    destruct (nested_parts T _ _) as [queue'| |] eqn:Hnest; simpl; [|done..].
    apply nested_parts_ret in Hnest as [Hel ->].
    apply elements_empty_inv, leibniz_equiv in Hel.
    intros Hloop Hinv. destruct (IH _ _ Hloop) as (X & HX1 & HX2).
    + intros u [->%elem_of_singleton|Hu]%elem_of_union.
      * split; [done|]. intros c Hc. right. apply elem_of_app. right.
        by apply elem_of_elements, elem_of_direct_subclasses.
      * destruct (Hinv u Hu) as [? Hc]. split; [done|]. intros c Hcu.
        destruct (Hc c Hcu) as [?|[->|?]%elem_of_cons]; set_solver.
    + exists (X ∪ ({[x]} ∪ visited)). split; [intros u [->|?]%elem_of_cons; set_solver|].
      intros u [Hu|[->%elem_of_singleton|Hu]%elem_of_union]%elem_of_union.
      * destruct (HX2 u Hu) as [? Hc]. split; [done|]. intros c Hcu.
        apply elem_of_union_l. by apply Hc.
      * split; [done|]. intros c Hc. apply elem_of_union_l, HX1, elem_of_app. right.
        by apply elem_of_elements, elem_of_direct_subclasses.
      * destruct (Hinv u Hu) as [? Hc]. split; [done|]. intros c Hcu.
        destruct (Hc c Hcu) as [?|[->|?]%elem_of_cons]; [set_solver..|].
        apply elem_of_union_l, HX1, elem_of_app. by left.
Qed.

(** X21.  For operands that [resolve] accepts, [has_part_transitive] returns
    [False] exactly when neither the resolved whole nor any class below it
    has a direct part; in every other case it returns [True] or raises. *)
Theorem has_part_transitive_false_iff T whole part w p :
  resolve T whole = Ret w → resolve T part = Ret p →
  (has_part_transitive T whole part = Ret false
   ↔ ∀ n q, descendant T w n → (q, n) ∉ PART_OF T).
Proof.
  intros Hw Hp. pose proof (has_part_transitive_terminates T whole part) as Hterm.
  unfold has_part_transitive in *. rewrite Hw, Hp in *. simpl in *. split.
  - intros (X & HX1 & HX2)%has_part_loop_false; [|set_solver].
    intros n q Hn Hq.
    assert (Hin : n ∈ X).
    { clear Hq. revert n Hn. apply (rtc_ind_r (λ n, n ∈ X)); [apply HX1; left|].
      intros x c _ Hc Hx. by apply (HX2 x). }
    destruct (HX2 n Hin) as [Hempty _].
    apply elem_of_direct_parts in Hq. set_solver.
  - intros Hnone.
    destruct (has_part_loop_outcome T p
                (total_degree (parents T) (subclass_list T) + 2) ∅ [w])
      as [?|[?|(x & n & q & ->%list_elem_of_singleton & Hn & Hq & _)]]; [done|done|].
    by destruct (Hnone n q).
Qed.

Lemma has_part_transitive_false_iff_witness :
  has_part_transitive db "canine" "tail" = Ret false ∧
  ∀ n q, descendant db "canine" n → (q, n) ∉ PART_OF db.
Proof.
  assert (Hv : has_part_transitive db "canine" "tail" = Ret false) by compute_done.
  split; [done|].
  apply (has_part_transitive_false_iff db "canine" "tail" "canine" "tail");
    [compute_done|compute_done|done].
Defined.

(** X22.  Under canonical tables, a [True] answer of [has_part_transitive]
    is backed by the tables: the resolved whole or a class below it has a
    direct part that is the resolved part or an [IS_A] ancestor of it. *)
Theorem has_part_transitive_sound T whole part w p :
  canonical T → resolve T whole = Ret w → resolve T part = Ret p →
  has_part_transitive T whole part = Ret true →
  ∃ n q, descendant T w n ∧ (q, n) ∈ PART_OF T ∧ rtc (λ u v, (u, v) ∈ IS_A T) p q.
Proof.
  intros Hcan Hw Hp. unfold has_part_transitive. rewrite Hw, Hp. simpl. intros Htrue.
  destruct (has_part_loop_outcome T p
              (total_degree (parents T) (subclass_list T) + 2) ∅ [w])
    as [?|[?|(x & _ & _ & ->%list_elem_of_singleton & _ & _ & Hsound)]]; [congruence..|].
  destruct (Hsound Htrue) as (n & q & Hn & Hq & Hisa).
  exists n, q. split_and!; [done|done|].
  destruct Hisa as [->|Hisa]; [apply rtc_refl|].
  destruct (is_a_transitive_spec T p q p q) as (b & Hb & Hiff).
  - apply Hcan. by eapply resolve_tokens.
  - apply Hcan. unfold tokens. apply elem_of_union_r.
    by eapply (elem_of_nodes T q n); right; left.
  - apply rtc_is_a_index, Hiff. congruence.
Qed.

Lemma has_part_transitive_sound_witness :
  ∃ n q, descendant db "bird" n ∧ (q, n) ∈ PART_OF db
         ∧ rtc (λ u v, (u, v) ∈ IS_A db) "wing" q.
Proof.
  apply (has_part_transitive_sound db "bird" "wing" "bird" "wing");
    [apply canonical_db|compute_done..].
Defined.

(** ** [src/ontology.py]: [neighbors] and [connected] *)

(** X23.  Under canonical tables, for operands that [resolve] accepts,
    [connected] returns a boolean, and answers [True] exactly when a chain
    of zero or more hops, each from an identifier to one that [neighbors]
    yields for it, leads from the one resolved operand to the other. *)
Theorem connected_decides T a b a' b' :
  canonical T → resolve T a = Ret a' → resolve T b = Ret b' →
  ∃ r : bool, connected T a b = Ret r ∧ (r = true ↔ rtc (adjacent T) a' b').
Proof. apply connected_spec. Qed.

Lemma connected_decides_witness :
  ∃ r : bool, connected db "rex" "шерсть" = Ret r
              ∧ (r = true ↔ rtc (adjacent db) "rex" "fur").
Proof.
  apply (connected_decides db "rex" "шерсть" "rex" "fur");
    [apply canonical_db|compute_done..].
Defined.

(** X24.  Under canonical tables, [True] answers of [connected] compose:
    with reflexivity and symmetry, [connected] is an equivalence on the
    identifiers that [resolve] accepts. *)
Theorem connected_transitive T a b c :
  canonical T → connected T a b = Ret true → connected T b c = Ret true →
  connected T a c = Ret true.
Proof.
  intros Hcan Hab Hbc.
  destruct (resolve T a) as [a'| |] eqn:Ha;
    [|by unfold connected in Hab; rewrite Ha in Hab..].
  destruct (resolve T b) as [b'| |] eqn:Hb;
    [|by unfold connected in Hbc; rewrite Hb in Hbc..].
  destruct (resolve T c) as [c'| |] eqn:Hc;
    [|by unfold connected in Hbc; rewrite Hb, Hc in Hbc..].
  destruct (connected_spec T a b a' b' Hcan Ha Hb) as (r1 & E1 & I1).
  destruct (connected_spec T b c b' c' Hcan Hb Hc) as (r2 & E2 & I2).
  destruct (connected_spec T a c a' c' Hcan Ha Hc) as (r3 & E3 & I3).
  rewrite E3. f_equal. apply I3. etrans; [apply I1|apply I2]; congruence.
Qed.

Lemma connected_transitive_witness : connected db "rex" "feather" = Ret true.
Proof.
  apply (connected_transitive db "rex" "animal" "feather");
    [apply canonical_db|compute_done..].
Defined.

Lemma is_a_chain_linked T x y :
  canonical T → x ∈ tokens T →
  rtc (edge_of (IS_A_INDEX T)) x y → rtc (adjacent T) x y.
Proof.
  intros Hcan Hx Hr. induction Hr as [|x y z Hxy _ IH]; [apply rtc_refl|].
  assert (Hadj : adjacent T x y).
  { unfold adjacent, yielded, neighbors. rewrite (Hcan x Hx). simpl.
    apply elem_of_neighbors_of. left. by apply edge_of_build_index. }
  eapply rtc_l; [done|]. apply IH.
  apply yielded_nodes in Hadj. unfold tokens. set_solver.
Qed.

(** X25.  Under canonical tables, what the taxonomy or the composition
    table relates is connected: a [True] answer of [is_a_transitive] or of
    [has_part] gives a [True] answer of [connected] for the same operands. *)
Theorem related_implies_connected T a b :
  canonical T →
  is_a_transitive T a b = Ret true ∨ has_part T a b = Ret true →
  connected T a b = Ret true.
Proof.
  intros Hcan Hrel.
  destruct (resolve T a) as [a'| |] eqn:Ha;
    [|by destruct Hrel as [H|H]; unfold is_a_transitive, has_part in H; rewrite Ha in H..].
  destruct (resolve T b) as [b'| |] eqn:Hb;
    [|by destruct Hrel as [H|H]; unfold is_a_transitive, has_part in H;
         rewrite Ha, Hb in H..].
  destruct (connected_spec T a b a' b' Hcan Ha Hb) as (r & -> & Hiff).
  f_equal. apply Hiff. pose proof (resolve_tokens _ _ _ Ha) as Hta.
  destruct Hrel as [Hisa|Hpart].
  - destruct (is_a_transitive_spec T a b a' b' Ha Hb) as (r' & Hr' & Hiff').
    apply is_a_chain_linked; [done|done|]. apply Hiff'. congruence.
  - unfold has_part in Hpart. rewrite Ha, Hb in Hpart. simpl in Hpart.
    injection Hpart as Hin%bool_decide_eq_true.
    apply rtc_once. unfold adjacent, yielded, neighbors. rewrite (Hcan a' Hta). simpl.
    apply elem_of_neighbors_of. tauto.
Qed.

Lemma related_implies_connected_witness :
  connected db "собака" "entity" = Ret true ∧ connected db "bird" "wing" = Ret true.
Proof.
  split; apply related_implies_connected;
    [apply canonical_db|left; compute_done|apply canonical_db|right; compute_done].
Defined.

(** X26.  Under canonical tables, [neighbors] is symmetric on canonical
    tokens: if it yields [y] for [x], it yields [x] for [y]; and it only
    yields identifiers that occur in the tables. *)
Theorem neighbors_symmetric T x y l :
  canonical T → x ∈ tokens T → neighbors T x = Ret l → y ∈ l →
  y ∈ nodes T ∧ ∃ l', neighbors T y = Ret l' ∧ x ∈ l'.
Proof.
  intros Hcan Hx Hl Hy.
  assert (Hadj : adjacent T x y) by (unfold adjacent, yielded; by rewrite Hl).
  split; [by eapply yielded_nodes|].
  destruct (adjacent_sym T x y Hcan Hx Hadj) as [Hyx Hty].
  unfold adjacent, yielded in Hyx.
  destruct (neighbors T y) as [l'| |]; [by exists l'|by apply elem_of_nil in Hyx..].
Qed.

Lemma neighbors_symmetric_witness :
  ∃ l', neighbors db "rex" = Ret l' ∧ "dog" ∈ l'.
Proof.
  assert (Hn : ∃ l, neighbors db "dog" = Ret l ∧ "rex" ∈ l).
  { eexists. split; [by vm_compute|compute_done]. }
  destruct Hn as (l & Hl & Hin).
  apply (neighbors_symmetric db "dog" "rex" l); [apply canonical_db|compute_done|done..].
Defined.

(** ** [src/ontology.py]: [part_of_transitive] *)

Lemma accepts_terminates T whole w : accepts T whole w ≠ Timeout.
Proof. unfold accepts. case_decide; [done|apply is_a_transitive_terminates]. Qed.

Lemma any_accepts_terminates T whole ws : any_accepts T whole ws ≠ Timeout.
Proof.
  induction ws as [|w ws IH]; simpl; [done|].
  pose proof (accepts_terminates T whole w).
  destruct (accepts T whole w) as [[]| |]; done.
Qed.

Lemma scan_wholes_shape T whole ws queue :
  scan_wholes T whole ws queue ≠ Timeout ∧
  ∀ queue', scan_wholes T whole ws queue = Ret (Some queue') → queue' = queue ++ ws.
Proof.
  revert queue. induction ws as [|w ws IH]; intros queue; simpl.
  { split; [done|]. intros ? [= <-]. by rewrite app_nil_r. }
  pose proof (accepts_terminates T whole w).
  destruct (accepts T whole w) as [[]| |]; simpl; [done| |done|done].
  destruct (IH (queue ++ [w])) as [? Hq]. split; [done|].
  intros queue' ->%Hq. by rewrite <- app_assoc.
Qed.

Lemma scan_supers_shape T whole sps queue :
  scan_supers T whole sps queue ≠ Timeout ∧
  ∀ queue', scan_supers T whole sps queue = Ret (Some queue') → queue' = queue ++ sps.
Proof.
  revert queue. induction sps as [|sp sps IH]; intros queue; simpl.
  { split; [done|]. intros ? [= <-]. by rewrite app_nil_r. }
  assert (Hr : (if decide ((sp, whole) ∈ PART_OF T) then Ret true
                else any_accepts T whole (succs (PART_OF_INDEX T) sp)) ≠ Timeout).
  { case_decide; [done|apply any_accepts_terminates]. }
  destruct (if decide ((sp, whole) ∈ PART_OF T) then _ else _) as [[]| |];
    simpl; [done| |done|done].
  destruct (IH (queue ++ [sp])) as [? Hq]. split; [done|].
  intros queue' ->%Hq. by rewrite <- app_assoc.
Qed.

Lemma elem_of_part_of_index T x y :
  y ∈ succs (PART_OF_INDEX T) x ↔ (x, y) ∈ PART_OF T.
Proof. apply elem_of_index. Qed.

Lemma elem_of_is_a_index T x y : y ∈ succs (IS_A_INDEX T) x ↔ (x, y) ∈ IS_A T.
Proof. apply elem_of_index. Qed.

Lemma climbs_outside T x :
  x ∉ dom (PART_OF_INDEX T) ∪ dom (IS_A_INDEX T) → climbs T x = [].
Proof.
  intros Hx. unfold climbs. rewrite !succs_outside; [done|set_solver..].
Qed.

Lemma part_of_loop_terminates T whole fuel visited queue :
  length queue
  + weight (dom (PART_OF_INDEX T) ∪ dom (IS_A_INDEX T)) (climbs T) visited < fuel →
  part_of_loop T whole fuel visited queue ≠ Timeout.
Proof.
  revert visited queue. induction fuel as [|fuel IH]; intros visited queue Hlt; [lia|].
  destruct queue as [|x queue]; simpl; [done|]. simpl in Hlt.
  case_decide as Hx; [apply IH; lia|].
  destruct (scan_wholes_shape T whole (succs (PART_OF_INDEX T) x) queue) as [Ht1 Hq1].
  destruct (scan_wholes T whole _ queue) as [[q1|]| |]; simpl; [|done..].
  rewrite (Hq1 q1 eq_refl).
  destruct (scan_supers_shape T whole (succs (IS_A_INDEX T) x)
              (queue ++ succs (PART_OF_INDEX T) x)) as [Ht2 Hq2].
  destruct (scan_supers T whole _ _) as [[q2|]| |]; simpl; [|done..].
  rewrite (Hq2 q2 eq_refl). apply IH. rewrite !length_app.
  destruct (decide (x ∈ dom (PART_OF_INDEX T) ∪ dom (IS_A_INDEX T))) as [Hd|Hd].
  - rewrite (weight_visit _ _ _ x) in Hlt by done.
    assert (length (climbs T x) = length (succs (PART_OF_INDEX T) x)
                                  + length (succs (IS_A_INDEX T) x))
      by (unfold climbs; apply length_app).
    lia.
  - pose proof (climbs_outside T x Hd) as Hc. unfold climbs in Hc.
    apply app_eq_nil in Hc as [-> ->]. rewrite weight_skip by done. simpl. lia.
Qed.

Lemma part_of_transitive_terminates T part whole :
  part_of_transitive T part whole ≠ Timeout.
Proof.
  unfold part_of_transitive.
  destruct (resolve T part) as [p| |] eqn:Hp; simpl;
    [|done|by apply resolve_terminates in Hp].
  destruct (resolve T whole) as [w| |] eqn:Hw; simpl;
    [|done|by apply resolve_terminates in Hw].
  apply part_of_loop_terminates. rewrite weight_empty. simpl. lia.
Qed.

Section bfs_part_of.

Context (T : tables) (whole : string).
Context (Hcan : canonical T) (Hwhole : whole ∈ tokens T).

Lemma node_token x : x ∈ nodes T → x ∈ tokens T.
Proof. unfold tokens. set_solver. Qed.

Lemma accepts_spec w :
  w ∈ tokens T →
  ∃ b : bool, accepts T whole w = Ret b ∧ (b = true ↔ rtc (edge_of (IS_A_INDEX T)) whole w).
Proof.
  intros Hw. unfold accepts. case_decide as Heq.
  - subst. exists true. split; [done|]. split; [intros _; apply rtc_refl|done].
  - apply is_a_transitive_spec; by apply Hcan.
Qed.

Lemma any_accepts_spec ws :
  (∀ w, w ∈ ws → w ∈ tokens T) →
  ∃ b : bool, any_accepts T whole ws = Ret b ∧
    (b = true ↔ ∃ w, w ∈ ws ∧ rtc (edge_of (IS_A_INDEX T)) whole w).
Proof.
  induction ws as [|w ws IH]; intros Hws; simpl.
  { exists false. split; [done|]. split; [done|]. by intros (? & ?%elem_of_nil & _). }
  destruct (accepts_spec w) as ([] & -> & Hw); [apply Hws; left| |]; simpl.
  - exists true. split; [done|]. split; [|done]. intros _. exists w.
    split; [left|by apply Hw].
  - destruct IH as (b & -> & Hb); [intros; apply Hws; by right|].
    exists b. split; [done|]. rewrite Hb. split.
    + intros (w' & ? & ?). exists w'. split; [by right|done].
    + intros (w' & [->|?]%elem_of_cons & Hr); [|by exists w'].
      apply Hw in Hr. done.
Qed.

Lemma scan_wholes_spec x queue :
  ∃ o, scan_wholes T whole (succs (PART_OF_INDEX T) x) queue = Ret o ∧
    match o with
    | None => part_link T whole x
    | Some queue' =>
        queue' = queue ++ succs (PART_OF_INDEX T) x ∧ ¬ part_link T whole x
    end.
Proof.
  assert (Hgen : ∀ ws queue, (∀ w, w ∈ ws → w ∈ tokens T) →
    ∃ o, scan_wholes T whole ws queue = Ret o ∧
      match o with
      | None => ∃ w, w ∈ ws ∧ rtc (edge_of (IS_A_INDEX T)) whole w
      | Some queue' => queue' = queue ++ ws
                       ∧ ∀ w, w ∈ ws → ¬ rtc (edge_of (IS_A_INDEX T)) whole w
      end).
  { clear queue. induction ws as [|w ws IH]; intros queue Hws; simpl.
    { exists (Some queue). split; [done|]. rewrite app_nil_r.
      split; [done|]. by intros ? ?%elem_of_nil. }
    destruct (accepts_spec w) as ([] & -> & Hw); [apply Hws; left| |]; simpl.
    - exists None. split; [done|]. exists w. split; [left|by apply Hw].
    - destruct (IH (queue ++ [w])) as ([q'|] & -> & Ho); [intros; apply Hws; by right|..].
      + exists (Some q'). split; [done|]. destruct Ho as [-> Hno].
        rewrite <- app_assoc. split; [done|].
        intros w' [->|?]%elem_of_cons; [|by apply Hno]. intros Hr%Hw. done.
      + exists None. split; [done|]. destruct Ho as (w' & ? & ?).
        exists w'. split; [by right|done]. }
  destruct (Hgen (succs (PART_OF_INDEX T) x) queue) as (o & Ho & Hspec).
  { intros w Hw%elem_of_index. apply node_token.
    eapply (elem_of_nodes T x w). tauto. }
  exists o. split; [done|]. destruct o as [q'|].
  - destruct Hspec as [-> Hno]. split; [done|].
    intros (w & Hw & Hr). by apply (Hno w); [apply elem_of_index|].
  - destruct Hspec as (w & Hw%elem_of_index & Hr). by exists w.
Qed.

Lemma scan_supers_spec sps queue :
  ∃ o, scan_supers T whole sps queue = Ret o ∧
    match o with
    | None => ∃ sp, sp ∈ sps ∧ part_link T whole sp
    | Some queue' => queue' = queue ++ sps
    end.
Proof.
  revert queue. induction sps as [|sp sps IH]; intros queue; simpl.
  { exists (Some queue). by rewrite app_nil_r. }
  assert (Hr : ∃ r : bool,
    (if decide ((sp, whole) ∈ PART_OF T) then Ret true
     else any_accepts T whole (succs (PART_OF_INDEX T) sp)) = Ret r ∧
    (r = true → part_link T whole sp)).
  { case_decide as Hin.
    - exists true. split; [done|]. intros _. exists whole. split; [done|apply rtc_refl].
    - destruct (any_accepts_spec (succs (PART_OF_INDEX T) sp)) as (r & -> & Hiff).
      { intros w Hw%elem_of_index. apply node_token.
        eapply (elem_of_nodes T sp w). tauto. }
      exists r. split; [done|]. intros (w & Hw%elem_of_index & ?)%Hiff. by exists w. }
  destruct Hr as ([] & -> & Hlink); simpl.
  - exists None. split; [done|]. exists sp. split; [left|by apply Hlink].
  - destruct (IH (queue ++ [sp])) as ([q'|] & -> & Ho).
    + exists (Some q'). split; [done|]. subst. by rewrite <- app_assoc.
    + exists None. split; [done|]. destruct Ho as (sp' & ? & ?).
      exists sp'. split; [by right|done].
Qed.

Lemma part_of_loop_spec fuel visited queue :
  length queue
  + weight (dom (PART_OF_INDEX T) ∪ dom (IS_A_INDEX T)) (climbs T) visited < fuel →
  (∀ x, x ∈ visited → ¬ part_link T whole x ∧
        ∀ y, climb T x y → y ∈ visited ∨ y ∈ queue) →
  ∃ b : bool, part_of_loop T whole fuel visited queue = Ret b ∧
    if b then ∃ x node, x ∈ queue ∧ rtc (climb T) x node ∧ part_link T whole node
    else ∃ X : gset string, (∀ x, x ∈ queue → x ∈ X) ∧
           ∀ x, x ∈ X → ¬ part_link T whole x ∧ ∀ y, climb T x y → y ∈ X.
Proof.
  revert visited queue. induction fuel as [|fuel IH]; intros visited queue Hlt Hinv; [lia|].
  destruct queue as [|x queue]; simpl.
  { exists false. split; [done|]. exists visited. split; [by intros ? ?%elem_of_nil|].
    intros x Hx. destruct (Hinv x Hx) as [? Hc]. split; [done|].
    intros y Hy. destruct (Hc y Hy) as [?|?%elem_of_nil]; done. }
  simpl in Hlt. case_decide as Hx.
  - destruct (IH visited queue) as ([] & -> & Hb); [lia| |..].
    + intros u Hu. destruct (Hinv u Hu) as [? Hc]. split; [done|].
      intros y Hy. destruct (Hc y Hy) as [?|[->|?]%elem_of_cons]; auto.
    + exists true. split; [done|]. destruct Hb as (x' & node & ? & ?).
      exists x', node. split; [by right|done].
    + exists false. split; [done|]. destruct Hb as (X & HX1 & HX2).
      exists (X ∪ visited). split; [intros u [->|?]%elem_of_cons; set_solver|].
      intros u [Hu|Hu]%elem_of_union.
      * destruct (HX2 u Hu) as [? Hc]. split; [done|]. intros y Hy.
        apply elem_of_union_l. by apply Hc.
      * destruct (Hinv u Hu) as [? Hc]. split; [done|]. intros y Hy.
        destruct (Hc y Hy) as [?|[->|?]%elem_of_cons]; set_solver.
  - destruct (scan_wholes_spec x queue) as ([q1|] & -> & H1); simpl.
    2:{ exists true. split; [done|]. exists x, x. split; [left|]. split; [apply rtc_refl|done]. }
    destruct H1 as [-> Hnolink].
    destruct (scan_supers_spec (succs (IS_A_INDEX T) x)
                (queue ++ succs (PART_OF_INDEX T) x)) as ([q2|] & -> & H2); simpl.
    2:{ exists true. split; [done|]. destruct H2 as (sp & Hsp%elem_of_index & Hlink).
        exists x, sp. split; [left|]. split; [|done]. apply rtc_once. by right. }
    subst q2.
    assert (Hclimb : ∀ y, climb T x y →
              y ∈ (queue ++ succs (PART_OF_INDEX T) x) ++ succs (IS_A_INDEX T) x).
    { intros y [Hy|Hy]; rewrite !elem_of_app, elem_of_part_of_index, elem_of_is_a_index;
        tauto. }
    destruct (IH ({[x]} ∪ visited)
                ((queue ++ succs (PART_OF_INDEX T) x) ++ succs (IS_A_INDEX T) x))
      as ([] & -> & Hb).
    + rewrite !length_app.
      destruct (decide (x ∈ dom (PART_OF_INDEX T) ∪ dom (IS_A_INDEX T))) as [Hd|Hd].
      * rewrite (weight_visit _ _ _ x) in Hlt by done.
        assert (length (climbs T x) = length (succs (PART_OF_INDEX T) x)
                                      + length (succs (IS_A_INDEX T) x))
          by (unfold climbs; apply length_app).
        lia.
      * pose proof (climbs_outside T x Hd) as Hc. unfold climbs in Hc.
        apply app_eq_nil in Hc as [-> ->]. rewrite weight_skip by done. simpl. lia.
    + intros u [->%elem_of_singleton|Hu]%elem_of_union.
      * split; [done|]. intros y Hy. right. by apply Hclimb.
      * destruct (Hinv u Hu) as [? Hc]. split; [done|]. intros y Hy.
        destruct (Hc y Hy) as [?|[->|?]%elem_of_cons]; [set_solver..|].
        right. rewrite !elem_of_app. tauto.
    + exists true. split; [done|]. destruct Hb as (x' & node & Hx' & Hr & Hlink).
      rewrite !elem_of_app, elem_of_part_of_index, elem_of_is_a_index in Hx'.
      destruct Hx' as [[?|?]|?].
      * exists x', node. split; [by right|done].
      * exists x, node. split; [left|]. split; [|done]. eapply rtc_l; [|done]. by left.
      * exists x, node. split; [left|]. split; [|done]. eapply rtc_l; [|done]. by right.
    + exists false. split; [done|]. destruct Hb as (X & HX1 & HX2).
      exists (X ∪ ({[x]} ∪ visited)).
      split; [intros u [->|?]%elem_of_cons; [set_solver|]|].
      { apply elem_of_union_l, HX1. rewrite !elem_of_app. tauto. }
      intros u [Hu|[->%elem_of_singleton|Hu]%elem_of_union]%elem_of_union.
      * destruct (HX2 u Hu) as [? Hc]. split; [done|]. intros y Hy.
        apply elem_of_union_l. by apply Hc.
      * split; [done|]. intros y Hy. apply elem_of_union_l, HX1. by apply Hclimb.
      * destruct (Hinv u Hu) as [? Hc]. split; [done|]. intros y Hy.
        destruct (Hc y Hy) as [?|[->|?]%elem_of_cons]; [set_solver..|].
        apply elem_of_union_l, HX1. rewrite !elem_of_app. tauto.
Qed.

End bfs_part_of.

(** X27.  Under canonical tables, for operands that [resolve] accepts,
    [part_of_transitive] returns a boolean, and answers [True] exactly when,
    climbing from the resolved part along [PART_OF] and [IS_A] pairs (zero or
    more), one reaches a class that is a direct part of the resolved whole or
    of an [IS_A] ancestor of it. *)
Theorem part_of_transitive_decides T part whole p w :
  canonical T → resolve T part = Ret p → resolve T whole = Ret w →
  ∃ b : bool, part_of_transitive T part whole = Ret b ∧
    (b = true ↔ ∃ node w', rtc (climb T) p node ∧ (node, w') ∈ PART_OF T
                          ∧ rtc (λ u v, (u, v) ∈ IS_A T) w w').
Proof.
  intros Hcan Hp Hw. unfold part_of_transitive. rewrite Hp, Hw. simpl.
  destruct (part_of_loop_spec T w Hcan (resolve_tokens _ _ _ Hw)
              (total_degree (dom (PART_OF_INDEX T) ∪ dom (IS_A_INDEX T)) (climbs T) + 2)
              ∅ [p]) as (b & -> & Hb).
  { rewrite weight_empty. simpl. lia. }
  { set_solver. }
  exists b. split; [done|]. destruct b.
  - split; [intros _|done].
    destruct Hb as (x & node & ->%list_elem_of_singleton & Hr & w' & Hin & Hisa).
    exists node, w'. split_and!; [done|done|by apply rtc_is_a_index].
  - split; [done|]. intros (node & w' & Hr & Hin & Hisa). exfalso.
    destruct Hb as (X & HX1 & HX2).
    assert (Hall : ∀ n, rtc (climb T) p n → n ∈ X).
    { apply (rtc_ind_r (λ n, n ∈ X)); [apply HX1; left|].
      intros y z _ Hyz Hy. by apply (HX2 y). }
    pose proof (Hall node Hr) as Hnode.
    destruct (HX2 node Hnode) as [Hno _]. apply Hno. exists w'.
    split; [done|by apply rtc_is_a_index].
Qed.

Lemma part_of_transitive_decides_witness :
  part_of_transitive db "eye" "vertebrate" = Ret true ∧
  ∃ node w', rtc (climb db) "eye" node ∧ (node, w') ∈ PART_OF db
             ∧ rtc (λ u v, (u, v) ∈ IS_A db) "vertebrate" w'.
Proof.
  destruct (part_of_transitive_decides db "eye" "vertebrate" "eye" "vertebrate")
    as (b & Hb & Hiff); [apply canonical_db|compute_done..|].
  assert (Hv : part_of_transitive db "eye" "vertebrate" = Ret true) by compute_done.
  split; [done|]. apply Hiff. congruence.
Defined.

(** ** [lab_ontology.py]: [any_path] returns a shortest path *)

Lemma trail_functional prev z p1 p2 : trail prev z p1 → trail prev z p2 → p1 = p2.
Proof.
  intros H1. revert p2. induction H1 as [z Hz|z x r p Hz _ IH]; intros p2 H2.
  - destruct H2 as [z ?|z x r p ? _]; [done|congruence].
  - destruct H2 as [z ?|z x' r' p' Hz' Hp']; [congruence|].
    rewrite Hz in Hz'. injection Hz' as <- <-. f_equal. by apply IH.
Qed.

Lemma trail_dom prev z p : trail prev z p → z ∈ dom prev.
Proof. intros [z' ?|z' x r p' ? _]; by apply elem_of_dom. Qed.

Lemma level_functional prev z n m : level prev z n → level prev z m → n = m.
Proof.
  intros (p1 & H1 & <-) (p2 & H2 & <-). by rewrite (trail_functional _ _ _ _ H1 H2).
Qed.

Lemma level_insert prev y v z n :
  prev !! y = None → level prev z n → level (<[y:=v]> prev) z n.
Proof. intros Hy (p & Hp & <-). exists p. split; [by apply trail_insert|done]. Qed.

Lemma walk_snoc_inv a p e z : walk a (p ++ [e]) z → walk a p e.1.1 ∧ e.2 = z.
Proof.
  revert a. induction p as [|e' p IH]; simpl; intros a.
  - by intros [<- <-].
  - intros [<- Hw]. destruct (IH _ Hw). done.
Qed.

Lemma within_zero O a z : within O a 0 z → z = a.
Proof. intros (p & Hw & _ & Hlen). destruct p; simpl in *; by subst. Qed.

Lemma within_succ O a m z :
  within O a (S m) z → ∃ u, within O a m u ∧ step O u z.
Proof.
  intros (p & Hw & Hst & Hlen).
  destruct p as [|e0 p0] using rev_ind; [done|]. clear IHp0.
  rewrite length_app in Hlen. simpl in Hlen.
  apply walk_snoc_inv in Hw as [Hw <-]. apply Forall_app in Hst as [Hst He].
  apply (proj1 (Forall_singleton _ _)) in He. destruct e0 as [[u r] z']. unfold stored in He.
  simpl in *.
  exists u. split; [exists p0; split_and!; [done|done|lia]|by exists r].
Qed.

Section bfs_shortest.

Context (O : Ontology) (a b : string).

Lemma discovered_level prev z :
  discovered O a prev z → ∃ n, level prev z n.
Proof. intros (p & Hp & _). exists (length p). by exists p. Qed.

Lemma visit_one_levels k x r y st :
  bfs_inv O a b (Some x) st.1 st.2 → bfs_levels O a k (Some x) st.1 st.2 →
  edge_of (rels O r) x y →
  let st' := visit_targets x r [y] st in
  bfs_levels O a k (Some x) st'.1 st'.2.
Proof.
  destruct st as [prev q]. intros Hinv [L1 L2 L3 L4] Hedge. simpl in *.
  destruct (decide (y ∈ dom prev)) as [Hy|Hy]; simpl; [done|].
  assert (Hnone : prev !! y = None) by by apply not_elem_of_dom.
  pose proof (L2 x eq_refl) as Hxk.
  assert (Hyk : level (<[y:=Some (x, r)]> prev) y (S k)).
  { destruct Hxk as (p & Hp & <-). exists (p ++ [(x, r, y)]). split.
    - apply trail_step; [by rewrite lookup_insert_eq|by apply trail_insert].
    - rewrite length_app. simpl. lia. }
  split.
  - intros z n m Hz Hm. destruct (decide (z = y)) as [->|Hne].
    + rewrite (level_functional _ _ _ _ Hz Hyk).
      destruct (decide (m ≤ k)) as [Hle|]; [|lia].
      destruct Hy. by eapply L4.
    + assert (Hzd : z ∈ dom prev).
      { destruct Hz as (p & Hp%trail_dom & _). rewrite dom_insert_L in Hp. set_solver. }
      destruct (discovered_level prev z) as [n' Hn']; [by apply Hinv|].
      rewrite (level_functional _ _ _ _ Hz (level_insert _ y _ _ _ Hnone Hn')).
      by eapply L1.
  - intros ? [= <-]. by apply level_insert.
  - destruct L3 as (q1 & q2 & Hq & H1 & H2). exists q1, (q2 ++ [y]).
    rewrite fmap_app, Hq, <- app_assoc. split_and!; [done| |].
    + intros z Hz. by apply level_insert, H1.
    + intros z [Hz| ->%list_elem_of_singleton]%elem_of_app; [|done].
      by apply level_insert, H2.
  - intros z m Hm Hle. rewrite dom_insert_L. apply elem_of_union_r. by eapply L4.
Qed.

Lemma visit_targets_levels k x r ys st :
  bfs_inv O a b (Some x) st.1 st.2 → bfs_levels O a k (Some x) st.1 st.2 →
  x ∈ dom st.1 → (∀ y, y ∈ ys → edge_of (rels O r) x y) →
  let st' := visit_targets x r ys st in
  bfs_levels O a k (Some x) st'.1 st'.2.
Proof.
  revert st. induction ys as [|y ys IH]; intros st Hinv Hlev Hx Hys; [done|].
  change (visit_targets x r (y :: ys) st)
    with (visit_targets x r ys (visit_targets x r [y] st)).
  destruct (visit_targets_inv O a b x r [y] st) as (Hinv' & Hdom & _ & _);
    [done|done|intros ? ->%list_elem_of_singleton; apply Hys; left|].
  apply IH; [done| |by apply Hdom|intros; apply Hys; by right].
  apply visit_one_levels; [done|done|apply Hys; left].
Qed.

Lemma expand_levels k x st :
  bfs_inv O a b (Some x) st.1 st.2 → bfs_levels O a k (Some x) st.1 st.2 →
  x ∈ dom st.1 →
  let st' := expand O x st in
  bfs_levels O a k (Some x) st'.1 st'.2.
Proof.
  intros H0 L0 Hx st'. subst st'. unfold expand, relnames. cbn [foldl].
  destruct (visit_targets_inv O a b x R_is_a (succs (rels O R_is_a) x) st)
    as (H1 & D1 & _ & _); [done|done|by intros ? ?%elem_of_succs|].
  pose proof (visit_targets_levels k x R_is_a (succs (rels O R_is_a) x) st H0 L0 Hx
                ltac:(by intros ? ?%elem_of_succs)) as L1.
  destruct (visit_targets_inv O a b x R_part_of (succs (rels O R_part_of) x) _ H1)
    as (H2 & D2 & _ & _); [by apply D1|by intros ? ?%elem_of_succs|].
  pose proof (visit_targets_levels k x R_part_of (succs (rels O R_part_of) x) _ H1 L1
                ltac:(by apply D1) ltac:(by intros ? ?%elem_of_succs)) as L2.
  apply visit_targets_levels; [done|done|by apply D2, D1|by intros ? ?%elem_of_succs].
Qed.

Lemma any_path_loop_shortest fuel k prev q p :
  bfs_inv O a b None prev q → bfs_levels O a k None prev q →
  any_path_loop O b fuel prev q = Ret (Some p) →
  ∀ p', walk a p' b → Forall (stored O) p' → length p ≤ length p'.
Proof.
  revert k prev q. induction fuel as [|fuel IH]; intros k prev q Hinv Hlev; [done|].
  destruct q as [|[x o] q]; simpl; [done|].
  destruct (decide (x = b)) as [->|Hne].
  - destruct Hinv as [I1 I2 I3 I4].
    destruct (I2 b) as (p0 & Ht & Hlen & Hw & Hst); [apply I3; simpl; left|].
    rewrite (walk_back_trail _ _ _ Ht) by done. simpl.
    rewrite reverse_involutive. intros [= <-] p' Hw' Hst'.
    apply (lv_min _ _ _ _ _ _ Hlev b); [by exists p0|by exists p'].
  - assert (Hx : x ∈ dom prev) by (apply Hinv; simpl; left).
    assert (Hinv1 : bfs_inv O a b (Some x) prev q).
    { destruct Hinv as [I1 I2 I3 I4]. split; simpl in *; [done|done|set_solver|].
      intros z Hz. destruct (I4 z Hz) as [?|[[->|?]%elem_of_cons|?]];
        [done|by left|by right; left|by right; right]. }
    assert (∃ k', bfs_levels O a k' (Some x) prev q) as [k' Hlev1].
    { destruct Hlev as [L1 L2 L3 L4]. destruct L3 as (q1 & q2 & Hq & H1 & H2).
      simpl in Hq. destruct q1 as [|z q1].
      - destruct q2 as [|z q2]; [done|]. simpl in Hq. injection Hq as <- Hq.
        exists (S k). split; [done| | |].
        + intros ? [= <-]. apply H2. left.
        + exists q2, []. rewrite app_nil_r. split_and!; [done| |by intros ? ?%elem_of_nil].
          intros z Hz. apply H2. by right.
        + intros z m Hm Hle. destruct (decide (m ≤ k)) as [?|Hgt]; [by eapply L4|].
          assert (m = S k) as -> by lia.
          apply within_succ in Hm as (u & Hu & Huz).
          assert (Hud : u ∈ dom prev) by by eapply L4.
          destruct (discovered_level prev u) as [n Hn]; [by apply Hinv|].
          assert (n ≤ k) by by eapply L1.
          destruct (inv_expanded _ _ _ _ _ _ Hinv u Hud) as [?|[Huq|[_ Hcl]]];
            [done| |by apply Hcl].
          simpl in Huq. rewrite Hq in Huq.
          assert (level prev u (S k)) as Hlv.
          { apply elem_of_cons in Huq as [->|?]; apply H2; [left|by right]. }
          pose proof (level_functional _ _ _ _ Hn Hlv). lia.
      - simpl in Hq. injection Hq as <- Hq. exists k. split; [done| | |done].
        + intros ? [= <-]. apply H1. left.
        + exists q1, q2. split_and!; [done| |done]. intros z Hz. apply H1. by right. }
    destruct (expand_inv O a b x (prev, q)) as (H1 & Hcl & _); [done|done|].
    pose proof (expand_levels k' x (prev, q) Hinv1 Hlev1 Hx) as L1.
    apply (IH k').
    + destruct H1 as [I1 I2 I3 I4]. split; [done|done|done|].
      intros z Hz. destruct (I4 z Hz) as [[= ->]|[?|?]];
        [right; right; done|by right; left|by right; right].
    + destruct L1 as [M1 M2 M3 M4]. split; [done|done|done|done].
Qed.

End bfs_shortest.

(** X28.  A path that [any_path] returns is a shortest one: no chain of
    stored edges from [a] to [b] has fewer elements; in particular the path
    for [a == b] is empty. *)
Theorem any_path_shortest O a b p :
  any_path O a b = Ret (Some p) →
  ∀ p', walk a p' b → Forall (stored O) p' → length p ≤ length p'.
Proof.
  apply (any_path_loop_shortest O a b _ 0).
  - split; simpl.
    + rewrite dom_singleton_L. set_solver.
    + intros y. rewrite dom_singleton_L. intros ->%elem_of_singleton.
      exists []. split_and!; [|rewrite map_size_singleton; simpl; lia|done|done].
      apply trail_root. by rewrite lookup_singleton_eq.
    + set_solver.
    + intros z. rewrite dom_singleton_L. intros ->%elem_of_singleton.
      right; left. set_solver.
  - assert (Ha : level ({[a := None]} : prevmap) a 0).
    { exists []. split; [|done]. apply trail_root. by rewrite lookup_singleton_eq. }
    split.
    + intros z n m Hz Hm.
      assert (z = a) as ->.
      { destruct Hz as (p0 & Hp%trail_dom & _). rewrite dom_singleton_L in Hp. set_solver. }
      rewrite (level_functional _ _ _ _ Hz Ha). lia.
    + done.
    + exists [a], []. split_and!; [done| |by intros ? ?%elem_of_nil].
      by intros z ->%list_elem_of_singleton.
    + intros z m Hm Hle. assert (m = 0) as -> by lia.
      apply within_zero in Hm as ->. rewrite dom_singleton_L. set_solver.
Qed.

Lemma any_path_shortest_witness :
  length [("hub", R_part_of, "rim"); ("rim", R_part_of, "spoke")]
  ≤ length [("hub", R_part_of, "rim"); ("rim", R_part_of, "spoke");
            ("spoke", R_part_of, "hub"); ("hub", R_part_of, "rim");
            ("rim", R_part_of, "spoke")].
Proof.
  apply (any_path_shortest ring_store "hub" "spoke").
  - compute_done.
  - by simpl.
  - repeat constructor; compute_done.
Defined.
